(** * wayback-discover-diff-go: the fingerprint pipeline and its query layer

    A shallow embedding of the Go packages [simhash], [job] and [utils].
    Go's [int] is the 64-bit two's-complement integer of the common targets,
    a [string] is its sequence of bytes, a [map] is a finite map together
    with the order in which one [range] loop happens to visit it, and a
    run-time panic is the [None] of an option. *)

From Stdlib Require Import ZArith Lia List Strings.String Strings.Ascii.
From stdpp Require Import base option list gmap strings sorting.
From Equations Require Import Equations.

Local Open Scope Z_scope.

(* ===================================================================== *)
(** * Part I: the program *)
(* ===================================================================== *)

(** ** Go's [int] *)

Definition int_min : Z := - 2 ^ 63.
Definition int_max : Z := 2 ^ 63 - 1.

(** The value an [int] holds after an arithmetic result [z]. *)
Definition wrap (z : Z) : Z := (z + 2 ^ 63) mod 2 ^ 64 - 2 ^ 63.

(** A byte is a [Z] below 256; [string(data)] and [[]byte(s)] convert. *)
Definition is_byte (b : Z) : Prop := 0 <= b < 256.

Definition bytes_of_string (s : string) : list Z :=
  map (fun c => Z.of_N (N_of_ascii c)) (list_ascii_of_string s).

Definition string_of_bytes (bs : list Z) : string :=
  string_of_list_ascii (map (fun b => ascii_of_N (Z.to_N b)) bs).

(** [new(big.Int).SetBytes]: the big-endian value of a byte slice. *)
Definition SetBytes (bs : list Z) : Z := foldl (fun acc b => 256 * acc + b) 0 bs.

(** [sort.Strings] and [slices.Sort] on strings: increasing byte-wise order. *)
Definition sort_Strings (words : list string) : list string :=
  merge_sort String.le words.

(** ** golang.org/x/crypto/blake2b, unkeyed, 64 bytes of output (RFC 7693) *)

Module blake2b.

Definition w64 (x : Z) : Z := x mod 2 ^ 64.

Definition rotr (x n : Z) : Z :=
  w64 (Z.lor (Z.shiftr x n) (Z.shiftl x (64 - n))).

Definition IV : list Z :=
  [0x6a09e667f3bcc908; 0xbb67ae8584caa73b; 0x3c6ef372fe94f82b; 0xa54ff53a5f1d36f1;
   0x510e527fade682d1; 0x9b05688c2b3e6c1f; 0x1f83d9abfb41bd6b; 0x5be0cd19137e2179].

Definition SIGMA : list (list nat) :=
  [[0; 1; 2; 3; 4; 5; 6; 7; 8; 9; 10; 11; 12; 13; 14; 15];
   [14; 10; 4; 8; 9; 15; 13; 6; 1; 12; 0; 2; 11; 7; 5; 3];
   [11; 8; 12; 0; 5; 2; 15; 13; 10; 14; 3; 6; 7; 1; 9; 4];
   [7; 9; 3; 1; 13; 12; 11; 14; 2; 6; 5; 10; 4; 0; 15; 8];
   [9; 0; 5; 7; 2; 4; 10; 15; 14; 1; 11; 12; 6; 8; 3; 13];
   [2; 12; 6; 10; 0; 11; 8; 3; 4; 13; 7; 5; 15; 14; 1; 9];
   [12; 5; 1; 15; 14; 13; 4; 10; 0; 7; 6; 3; 9; 2; 8; 11];
   [13; 11; 7; 14; 12; 1; 3; 9; 5; 0; 15; 4; 8; 6; 2; 10];
   [6; 15; 14; 9; 11; 3; 0; 8; 12; 2; 13; 7; 1; 4; 10; 5];
   [10; 2; 8; 4; 7; 6; 1; 5; 15; 11; 9; 14; 3; 12; 13; 0]]%nat.

(** The mixing function on the sixteen working words. *)
Definition G (v : list Z) (a b c d : nat) (x y : Z) : list Z :=
  let v := <[a := w64 (v !!! a + v !!! b + x)]> v in
  let v := <[d := rotr (Z.lxor (v !!! d) (v !!! a)) 32]> v in
  let v := <[c := w64 (v !!! c + v !!! d)]> v in
  let v := <[b := rotr (Z.lxor (v !!! b) (v !!! c)) 24]> v in
  let v := <[a := w64 (v !!! a + v !!! b + y)]> v in
  let v := <[d := rotr (Z.lxor (v !!! d) (v !!! a)) 16]> v in
  let v := <[c := w64 (v !!! c + v !!! d)]> v in
  <[b := rotr (Z.lxor (v !!! b) (v !!! c)) 63]> v.

Definition round (m : list Z) (v : list Z) (r : nat) : list Z :=
  let s := SIGMA !!! (r mod 10)%nat in
  let mx (i : nat) := m !!! (s !!! i) in
  let v := G v 0 4 8 12 (mx 0%nat) (mx 1%nat) in
  let v := G v 1 5 9 13 (mx 2%nat) (mx 3%nat) in
  let v := G v 2 6 10 14 (mx 4%nat) (mx 5%nat) in
  let v := G v 3 7 11 15 (mx 6%nat) (mx 7%nat) in
  let v := G v 0 5 10 15 (mx 8%nat) (mx 9%nat) in
  let v := G v 1 6 11 12 (mx 10%nat) (mx 11%nat) in
  let v := G v 2 7 8 13 (mx 12%nat) (mx 13%nat) in
  G v 3 4 9 14 (mx 14%nat) (mx 15%nat).

(** Little-endian value of a run of bytes, and a block cut into words. *)
Definition le_word (bs : list Z) : Z := foldr (fun b acc => b + 256 * acc) 0 bs.

Fixpoint block_words (n : nat) (bs : list Z) : list Z :=
  match n with
  | O => []
  | S n' => le_word (take 8 bs) :: block_words n' (drop 8 bs)
  end.

(** The compression function: chaining value, block, byte counter, last flag. *)
Definition F (h : list Z) (block : list Z) (t : Z) (last : bool) : list Z :=
  let m := block_words 16 block in
  let v := h ++ IV in
  let v := <[12%nat := Z.lxor (v !!! 12%nat) (w64 t)]> v in
  let v := <[13%nat := Z.lxor (v !!! 13%nat) (w64 (Z.shiftr t 64))]> v in
  let v := if last then <[14%nat := Z.lxor (v !!! 14%nat) (2 ^ 64 - 1)]> v else v in
  let v := foldl (round m) v (seq 0 12) in
  zip_with Z.lxor h (zip_with Z.lxor (take 8 v) (drop 8 v)).

(** All blocks but the last are full; the last one is zero-padded. *)
Fixpoint absorb (blocks : nat) (h : list Z) (t : Z) (bs : list Z) : list Z :=
  match blocks with
  | O => h
  | S blocks' =>
      if Z.of_nat (length bs) <=? 128
      then F h (bs ++ replicate (128 - length bs) 0) (t + Z.of_nat (length bs)) true
      else absorb blocks' (F h (take 128 bs) (t + 128) false) (t + 128) (drop 128 bs)
  end.

Definition le_bytes (w : Z) : list Z :=
  map (fun i => Z.land (Z.shiftr w (8 * Z.of_nat i)) 255) (seq 0 8).

(** [New512(nil)], [Write(data)], [Sum(nil)]. *)
Definition Sum512 (data : list Z) : list Z :=
  let h0 := <[0%nat := Z.lxor (IV !!! 0%nat) 0x01010040]> IV in
  concat (map le_bytes (absorb (S (length data)) h0 0 data)).

End blake2b.

(** ** encoding/base64, the standard alphabet with padding *)

Module base64.

Definition encodeStd : string :=
  "ABCDEFGHIJKLMNOPQRSTUVWXYZabcdefghijklmnopqrstuvwxyz0123456789+/".

Definition padChar : ascii := "="%char.

(** [enc.encode[i]] *)
Definition encode (i : Z) : ascii :=
  nth (Z.to_nat i) (list_ascii_of_string encodeStd) padChar.

(** The 24-bit group of three source bytes and its four 6-bit digits. *)
Definition quantum (b0 b1 b2 : Z) : Z :=
  Z.lor (Z.lor (Z.shiftl b0 16) (Z.shiftl b1 8)) b2.

Definition digit (val shift : Z) : ascii :=
  encode (Z.land (Z.shiftr val shift) 0x3F).

Fixpoint EncodeToString (src : list Z) : string :=
  match src with
  | b0 :: b1 :: b2 :: rest =>
      let val := quantum b0 b1 b2 in
      String (digit val 18) (String (digit val 12) (String (digit val 6)
        (String (digit val 0) (EncodeToString rest))))
  | [b0; b1] =>
      let val := Z.lor (Z.shiftl b0 16) (Z.shiftl b1 8) in
      String (digit val 18) (String (digit val 12) (String (digit val 6)
        (String padChar EmptyString)))
  | [b0] =>
      let val := Z.shiftl b0 16 in
      String (digit val 18) (String (digit val 12)
        (String padChar (String padChar EmptyString)))
  | [] => EmptyString
  end.

(** The decoding map: the position of a character in the alphabet. *)
Fixpoint index_from (i : Z) (alphabet : list ascii) (c : ascii) : option Z :=
  match alphabet with
  | [] => None
  | a :: alphabet' => if Ascii.eqb a c then Some i else index_from (i + 1) alphabet' c
  end.

Definition decode (c : ascii) : option Z :=
  index_from 0 (list_ascii_of_string encodeStd) c.

Definition byte_at (val shift : Z) : Z := Z.land (Z.shiftr val shift) 0xFF.

(** [DecodeString]: four characters give three bytes; padding may only
    close the input. [None] is a [CorruptInputError]. *)
Fixpoint DecodeString (s : string) : option (list Z) :=
  match s with
  | EmptyString => Some []
  | String c0 (String c1 (String c2 (String c3 rest))) =>
      d0 ← decode c0; d1 ← decode c1;
      if Ascii.eqb c3 padChar then
        match rest with
        | EmptyString =>
            if Ascii.eqb c2 padChar then
              let val := Z.lor (Z.shiftl d0 18) (Z.shiftl d1 12) in
              Some [byte_at val 16]
            else
              d2 ← decode c2;
              let val := Z.lor (Z.lor (Z.shiftl d0 18) (Z.shiftl d1 12)) (Z.shiftl d2 6) in
              Some [byte_at val 16; byte_at val 8]
        | _ => None
        end
      else
        d2 ← decode c2; d3 ← decode c3;
        let val :=
          Z.lor (Z.lor (Z.lor (Z.shiftl d0 18) (Z.shiftl d1 12)) (Z.shiftl d2 6)) d3 in
        tail ← DecodeString rest;
        Some (byte_at val 16 :: byte_at val 8 :: byte_at val 0 :: tail)
  | _ => None
  end.

End base64.

(** ** package simhash *)

Module simhash.

(** [hashFunc]: the BLAKE2b-512 digest of the term, read as a big-endian
    number. *)
Definition hashFunc (data : string) : Z :=
  SetBytes (blake2b.Sum512 (bytes_of_string data)).

(** [mask]: [1<<size - 1]. *)
Definition mask (size : Z) : Z := Z.shiftl 1 size - 1.

(** One turn of the inner loop of [generateSimhash]: position [i] of the
    vector moves by [v], up when bit [i] of [h] is set and down otherwise. *)
Definition vote (h v : Z) (vector : list Z) (i : nat) : list Z :=
  if Z.testbit h (Z.of_nat i)
  then <[i := wrap (vector !!! i + v)]> vector
  else <[i := wrap (vector !!! i - v)]> vector.

(** One turn of the outer loop, for the entry [(k, v)] of the map. *)
Definition add_feature (size : Z) (vector : list Z) (kv : string * Z) : list Z :=
  if kv.2 <=? 0 then vector
  else
    let h := Z.land (hashFunc kv.1) (mask size) in
    foldl (vote h kv.2) vector (seq 0 (Z.to_nat size)).

(** One turn of the closing loop: [value.SetBit(value, i, 1)] when positive. *)
Definition set_positive (vector : list Z) (value : Z) (i : nat) : Z :=
  if 0 <? vector !!! i then Z.setbit value (Z.of_nat i) else value.

(** [generateSimhash], along the list [features] of the entries in the
    order the [range] loop visits them. [make([]int, size)] panics on a
    negative size. *)
Definition generateSimhash (features : list (string * Z)) (size : Z) : option Z :=
  if size <? 0 then None
  else
    let vector := foldl (add_feature size) (replicate (Z.to_nat size) 0) features in
    Some (foldl (set_positive vector) 0 (seq 0 (Z.to_nat size))).

(** The [n] low-order bytes of [x], the most significant first. *)
Fixpoint be_bytes (n : nat) (x : Z) : list Z :=
  match n with
  | O => []
  | S n' => be_bytes n' (x / 256) ++ [x mod 256]
  end.

(** [x.FillBytes(buf)]: the big-endian bytes of the absolute value of [x],
    zero-extended to the length [n] of the buffer; panics when it does not
    fit. *)
Definition FillBytes (x : Z) (n : nat) : option (list Z) :=
  if Z.abs x <? 256 ^ Z.of_nat n then Some (be_bytes n (Z.abs x)) else None.

(** [bytes[i], bytes[j] = bytes[j], bytes[i]] *)
Definition swap (i j : Z) (bytes : list Z) : list Z :=
  let bi := bytes !!! Z.to_nat i in
  let bj := bytes !!! Z.to_nat j in
  <[Z.to_nat j := bi]> (<[Z.to_nat i := bj]> bytes).

(** [for i, j := 0, len(bytes)-1; i < j; i, j = i+1, j-1]; the loop makes
    fewer turns than the slice has bytes. *)
Fixpoint to_little_endian (turns : nat) (i j : Z) (bytes : list Z) : list Z :=
  match turns with
  | O => bytes
  | S turns' =>
      if i <? j then to_little_endian turns' (i + 1) (j - 1) (swap i j bytes)
      else bytes
  end.

(** [packSimhashToBytes]; [make([]byte, sizeInBytes)] panics on a negative
    length. *)
Definition packSimhashToBytes (simhash : Z) (size : Z) : option (list Z) :=
  let sizeInBytes := Z.quot size 8 in
  if sizeInBytes <? 0 then None
  else
    bytes ← FillBytes simhash (Z.to_nat sizeInBytes);
    Some (to_little_endian (length bytes) 0 (Z.of_nat (length bytes) - 1) bytes).

Definition encodeSimhashToBase64 (simhash : Z) (size : Z) : option string :=
  base64.EncodeToString <$> packSimhashToBytes simhash size.

Definition GetSimhash (features : list (string * Z)) (size : Z) : option string :=
  simhash ← generateSimhash features size;
  encodeSimhashToBase64 simhash size.

(** The accumulator of the fingerprint at bit position [i], as a sum of
    unbounded integers: an entry of positive weight counts its weight, up
    when bit [i] of its reduced hash is set and down otherwise. *)
Definition contribution (size i : Z) (kv : string * Z) : Z :=
  if 0 <? kv.2
  then if Z.testbit (Z.land (hashFunc kv.1) (mask size)) i then kv.2 else - kv.2
  else 0.

Definition accumulator (features : list (string * Z)) (size i : Z) : Z :=
  foldr Z.add 0 (contribution size i <$> features).

(** The sum of the positive weights of a feature set. *)
Definition positive_weight (features : list (string * Z)) : Z :=
  foldr Z.add 0 ((fun kv => Z.max 0 kv.2) <$> features).

(** The vote of one token at bit position [i], and the votes of a list of
    tokens. *)
Definition ballot (size i : Z) (word : string) : Z :=
  if Z.testbit (Z.land (hashFunc word) (mask size)) i then 1 else -1.

Definition tally (size i : Z) (words : list string) : Z :=
  foldr Z.add 0 (ballot size i <$> words).

(** The orders in which [for k, v := range features] may visit a map. *)
Definition range_order (features : gmap string Z) (order : list (string * Z)) : Prop :=
  order ≡ₚ map_to_list features.

End simhash.

(** ** package utils: the query layer over the result store *)

Module utils.

(** *** The store and its client *)

(** The errors the query layer sees or makes. *)
Inductive error : Type :=
| redis_Nil                       (* go-redis: the reply was nil *)
| redis_error (msg : string)      (* go-redis: any other failure *)
| errorString (msg : string)      (* errors.New, fmt.Errorf without verbs *)
| error_loading (url timestamp : string) (cause : error).
                                  (* "error loading simhash data for url ..." *)

Definition NO_CAPTURES : error := errorString "NO_CAPTURES".
Definition invalid_input : error := errorString "invalid URL or timestamp".

(** What [redisClient.Cmd(...).Result()] returns for the three commands the
    query layer sends: the value and the error. *)
Record Client : Type := {
  HKeys : string -> list string * option error;
  HGet : string -> string -> string * option error;
  HMGet : string -> list string -> list (option string) * option error
}.

(** The field of the hash stored at a key, if both exist. *)
Definition field (db : gmap string (gmap string string)) (key f : string) :
    option string :=
  h ← db !! key; h !! f.

(** The client of a reachable server that holds [db]. A missing key is an
    empty hash; [HGET] of a missing field is a nil reply, which go-redis
    hands over as the error [redis.Nil]; [HMGET] answers nil for each missing
    field and needs at least one field. *)
Definition live (db : gmap string (gmap string string)) : Client := {|
  HKeys key := ((map_to_list (default ∅ (db !! key))).*1, None);
  HGet key f :=
    match field db key f with
    | Some v => (v, None)
    | None => (EmptyString, Some redis_Nil)
    end;
  HMGet key fields :=
    match fields with
    | [] => ([], Some (redis_error "ERR wrong number of arguments for 'hmget' command"))
    | _ => (field db key <$> fields, None)
    end
|}.

(** *** Surt *)

(** [strings.Split(s, sep)] for a separator of one byte. *)
Fixpoint Split (s : string) (sep : ascii) : list string :=
  match s with
  | EmptyString => [EmptyString]
  | String c s' =>
      if Ascii.eqb c sep then EmptyString :: Split s' sep
      else
        match Split s' sep with
        | part :: parts => String c part :: parts
        | [] => [String c EmptyString]
        end
  end.

(** [strings.Join(elems, sep)] *)
Fixpoint Join (elems : list string) (sep : string) : string :=
  match elems with
  | [] => EmptyString
  | [e] => e
  | e :: elems' => e ++ sep ++ Join elems' sep
  end.

Definition Surt (url : string) : string :=
  let domainParts := Split url "."%char in
  Join (sort_Strings domainParts) ",".

(** *** Pagination *)

Record CaptureResult : Type := { Timestamp : string; Simhash : string }.

(** The [p]-th group of up to [n] entries, pages counted from 1, and the
    number of the last page. *)
Definition nth_page {A : Type} (l : list A) (p n : Z) : list A :=
  take (Z.to_nat n) (drop (Z.to_nat ((p - 1) * n)) l).

Definition last_page (len n : Z) : Z := (len + n - 1) / n.

(** The result that pairs a timestamp with what a record stores for it. *)
Definition stored (h : gmap string string) (ts : string) : CaptureResult :=
  {| Timestamp := ts; Simhash := default EmptyString (h !! ts) |}.

(** What the conversion of a float64 to [int] gives for the two values no
    [int] represents; the language leaves it to the implementation. *)
Record Arch : Type := { int_of_inf : Z; int_of_nan : Z }.

(** The compiler's code for amd64 gives the smallest [int] for both; the
    one for arm64 saturates. *)
Definition amd64 : Arch := {| int_of_inf := int_min; int_of_nan := int_min |}.
Definition arm64 : Arch := {| int_of_inf := int_max; int_of_nan := 0 |}.

(** [int(math.Ceil(float64(n) / float64(snapshotsPerPage)))] for the length
    [n] of a slice. The float64 quotient of a length below 2^53 rounds to no
    other ceiling than the exact quotient has; a zero divisor gives +Inf,
    or NaN for an empty slice. *)
Definition total_pages (arch : Arch) (n snapshotsPerPage : Z) : Z :=
  if snapshotsPerPage =? 0 then
    if n =? 0 then int_of_nan arch else int_of_inf arch
  else - ((- n) / snapshotsPerPage).

(** [s[low:high]]; panics unless [0 <= low <= high <= len(s)]. *)
Definition slice {A : Type} (s : list A) (low high : Z) : option (list A) :=
  if (0 <=? low) && (low <=? high) && (high <=? Z.of_nat (length s))
  then Some (take (Z.to_nat (high - low)) (drop (Z.to_nat low) s))
  else None.

(** The page of the timestamps that [handleResults] goes on to fetch. *)
Definition page_of (arch : Arch) (timestamps : list string)
    (snapshotsPerPage page : Z) : option (list string) :=
  if page =? -1 then Some timestamps
  else
    let totalPages := total_pages arch (Z.of_nat (length timestamps)) snapshotsPerPage in
    if 0 <? totalPages then
      let page := Z.min page totalPages in
      let start := wrap ((page - 1) * snapshotsPerPage) in
      let end_ := Z.min (wrap (page * snapshotsPerPage)) (Z.of_nat (length timestamps)) in
      slice timestamps start end_
    else Some timestamps.

(** The closing loop of [handleResults]: a timestamp whose reply is a string
    becomes a result. *)
Fixpoint captureResults (timestamps : list string) (results : list (option string)) :
    list CaptureResult :=
  match timestamps, results with
  | ts :: timestamps', Some simhashStr :: results' =>
      {| Timestamp := ts; Simhash := simhashStr |} :: captureResults timestamps' results'
  | _ :: timestamps', None :: results' => captureResults timestamps' results'
  | _, _ => []
  end.

(** [handleResults]; [None] is the panic of a slice expression out of range,
    and the nil slice returned after a failed [HMGet] is the empty list. *)
Definition handleResults (arch : Arch) (redisClient : Client)
    (timestamps : list string) (key : string) (snapshotsPerPage page : Z) :
    option (list CaptureResult) :=
  timestamps ← page_of arch timestamps snapshotsPerPage page;
  let '(results, err) := HMGet redisClient key timestamps in
  match err with
  | Some _ => Some []
  | None => Some (captureResults timestamps results)
  end.

(** *** The query by year *)

(** The loop of [YearSimhash] over the sorted field names; [None] is its
    early return of NO_CAPTURES. *)
Fixpoint timestamps_of_year (year : string) (timestamps timeStampsToFetch : list string) :
    option (list string) :=
  match timestamps with
  | [] => Some timeStampsToFetch
  | ts :: timestamps' =>
      if decide (ts = year) then None
      else if String.prefix year ts
      then timestamps_of_year year timestamps' (timeStampsToFetch ++ [ts])
      else timestamps_of_year year timestamps' timeStampsToFetch
  end.

Definition YearSimhash (arch : Arch) (redisClient : Client) (url year : string)
    (page snapshotsPerPage : Z) : option (list CaptureResult * option error) :=
  if decide (url = EmptyString \/ year = EmptyString) then Some ([], Some invalid_input)
  else
    let key := Surt url in
    let '(timestamps, err) := HKeys redisClient key in
    if decide (is_Some err \/ length timestamps = 0%nat) then Some ([], Some NO_CAPTURES)
    else
      let timestamps := sort_Strings timestamps in
      match timestamps_of_year year timestamps [] with
      | None => Some ([], Some NO_CAPTURES)
      | Some [] => Some ([], Some NO_CAPTURES)
      | Some timeStampsToFetch =>
          results ← handleResults arch redisClient timeStampsToFetch key snapshotsPerPage page;
          Some (results, None)
      end.

(** *** The query by timestamp *)

Definition digit_value (c : ascii) : option Z :=
  let n := Z.of_N (N_of_ascii c) in
  if (48 <=? n) && (n <=? 57) then Some (n - 48) else None.

Definition two_digits (c1 c2 : ascii) : option Z :=
  d1 ← digit_value c1; d2 ← digit_value c2; Some (10 * d1 + d2).

Definition isLeap (year : Z) : bool :=
  (year mod 4 =? 0) && (negb (year mod 100 =? 0) || (year mod 400 =? 0)).

Definition daysIn (month year : Z) : Z :=
  if month =? 2 then (if isLeap year then 29 else 28)
  else if (month =? 4) || (month =? 6) || (month =? 9) || (month =? 11) then 30
  else 31.

(** What may follow the seconds: nothing, or a fractional second, which
    [time.Parse] reads even where the layout has none. *)
Definition fraction (rest : list ascii) : bool :=
  match rest with
  | [] => true
  | sep :: d :: ds =>
      (Ascii.eqb sep "." || Ascii.eqb sep ",")
      && forallb (fun c => bool_decide (is_Some (digit_value c))) (d :: ds)
  | _ => false
  end.

(** [validateTimestamp]: [time.Parse("20060102150405", ts)] succeeds. *)
Definition validateTimestamp (ts : string) : bool :=
  match list_ascii_of_string ts with
  | y1 :: y2 :: y3 :: y4 :: m1 :: m2 :: d1 :: d2 :: h1 :: h2 :: n1 :: n2 :: s1 :: s2 :: rest =>
      match two_digits y1 y2, two_digits y3 y4, two_digits m1 m2, two_digits d1 d2,
            two_digits h1 h2, two_digits n1 n2, two_digits s1 s2 with
      | Some yh, Some yl, Some month, Some day, Some hour, Some min, Some sec =>
          (1 <=? month) && (month <=? 12)
          && (1 <=? day) && (day <=? daysIn month (100 * yh + yl))
          && (hour <? 24) && (min <? 60) && (sec <? 60) && fraction rest
      | _, _, _, _, _, _, _ => false
      end
  | _ => false
  end.

Definition NO_CAPTURES_status : gmap string string :=
  {[ "status"%string := "error"%string; "message"%string := "NO_CAPTURES"%string ]}.
Definition CAPTURE_NOT_FOUND_status : gmap string string :=
  {[ "status"%string := "error"%string; "message"%string := "CAPTURE_NOT_FOUND"%string ]}.

(** [TimestampSimHash]; the nil map returned with an error is the empty map.
    A timestamp that parses has its first four bytes. *)
Definition TimestampSimHash (redisClient : Client) (url timestamp : string) :
    gmap string string * option error :=
  if decide (url = EmptyString \/ timestamp = EmptyString \/ validateTimestamp timestamp = false)
  then (∅, Some invalid_input)
  else
    let key := Surt url in
    let '(result, err) := HGet redisClient key timestamp in
    match err with
    | Some e => (∅, Some (error_loading url timestamp e))
    | None =>
        if negb (String.length result =? 0)%nat
        then ({[ "simhash"%string := result ]}, None)
        else
          let '(result, err) := HGet redisClient key (substring 0 4 timestamp) in
          match err with
          | Some e => (∅, Some (error_loading url timestamp e))
          | None =>
              if negb (String.length result =? 0)%nat
              then (NO_CAPTURES_status, None)
              else (CAPTURE_NOT_FOUND_status, None)
          end
    end.

(** *** A record of twenty-five captures, for the examples *)

Definition january : list string :=
  ["20230101000000"; "20230102000000"; "20230103000000"; "20230104000000";
   "20230105000000"; "20230106000000"; "20230107000000"; "20230108000000";
   "20230109000000"; "20230110000000"; "20230111000000"; "20230112000000";
   "20230113000000"; "20230114000000"; "20230115000000"; "20230116000000";
   "20230117000000"; "20230118000000"; "20230119000000"; "20230120000000";
   "20230121000000"; "20230122000000"; "20230123000000"; "20230124000000";
   "20230125000000"]%string.

(** Each capture is stored with its own day as its fingerprint. *)
Definition january_record : gmap string string :=
  list_to_map ((fun ts => (ts, substring 6 2 ts)) <$> january).

Definition january_db : gmap string (gmap string string) :=
  {[ Surt "example.com" := january_record ]}.

End utils.

(** ** package job *)

Module job.

(** *** The word counts of [extractHTMLFeatures] *)

(** The inner loop, [for i+count < len(words) && words[i+count] == word],
    on the words after position [i]: the count reached and the words from
    position [i+count] on. *)
Fixpoint run (word : string) (count : Z) (rest : list string) : Z * list string :=
  match rest with
  | w :: rest' =>
      if decide (w = word) then run word (count + 1) rest' else (count, rest)
  | [] => (count, [])
  end.

(** The outer loop, on the words from position [i] on. *)
Equations? count_runs (wordCounts : gmap string Z) (words : list string) :
    gmap string Z by wf (length words) lt :=
  count_runs wordCounts [] := wordCounts;
  count_runs wordCounts (word :: rest) :=
    count_runs (<[word := (run word 1 rest).1]> wordCounts) (run word 1 rest).2.
Proof.
  clear count_runs.
  enough (forall count, (length (run word count rest).2 <= length rest)%nat) as Hrun
    by (specialize (Hrun 1); simpl; lia).
  induction rest as [| w rest IH]; intros count; simpl; [lia |].
  destruct (decide (w = word)); simpl; [specialize (IH (count + 1)); lia | lia].
Qed.

(** The word counts as [extractHTMLFeatures] builds them from the tokens. *)
Definition wordCounts (words : list string) : gmap string Z :=
  count_runs ∅ (sort_Strings words).

(** How often a token occurs in a list of tokens. *)
Definition occurrences (word : string) (words : list string) : Z :=
  Z.of_nat (length (filter (eq word) words)).

(** The direct counting pass, [wordCounts[word]++] for each token. *)
Definition count_directly (words : list string) : gmap string Z :=
  foldl (fun counts word => <[word := default 0 (counts !! word) + 1]> counts) ∅ words.

(** *** DownloadCapture *)

Definition MAP_CAPTURE_DOWNLOAD : Z := 1000000.
Definition MAX_DOWNLOAD_ERRORS : Z := 10.
Definition MAX_RETRIES : Z := 2.
Definition CONCURRENCY_LIMIT : Z := 20.

(** An HTTP response as [DownloadCapture] reads it: the header fields under
    their canonical names and the bytes of the body as they came over the
    wire. *)
Record Response : Type := { Header : gmap string string; Body : list Z }.

(** [resp.Header.Get(key)]: the empty string when the field is missing. *)
Definition Get (header : gmap string string) (key : string) : string :=
  default EmptyString (header !! key).

(** What surrounds one call of [DownloadCapture]: whether the request can be
    built at all, what the transport answers to the request number [n] it is
    handed ([None] is a transport error), and what [rand.Intn(2000)] draws
    for turn [i] of the loop. *)
Record Network : Type := {
  request_ok : bool;
  Do : nat -> option Response;
  Intn2000 : Z -> Z
}.

(** What the loop does to the outside, in order. *)
Inductive event : Type :=
| Sleep (nanoseconds : Z)
| Request (n : nat).

(** [exponentialBackoff]: a millisecond, doubled [retry] times, and up to two
    milliseconds of jitter; in nanoseconds. The product is one of
    [time.Duration]s, which are 64-bit integers, and wraps around as they do
    (from the retry 44 on); the power of two is the one [math.Pow] gives for
    a retry from 0 to 62, which a [time.Duration] holds, and the sum with a
    jitter below 2000 stays in range. [DownloadCapture] passes 0 and 1. *)
Definition exponentialBackoff (retry : Z) (jitter : Z) : Z :=
  wrap (1000000 * 2 ^ retry) + 1000 * jitter.

(** The loop [for i := 0; i < MAX_RETRIES; i++] from turn [i] on, with [sent]
    requests made so far: the response it leaves in [resp] and what it did. *)
Fixpoint attempts (net : Network) (turns : nat) (i : Z) (sent : nat) :
    option Response * list event :=
  match turns with
  | O => (None, [])
  | S turns' =>
      let sleep := Sleep (exponentialBackoff i (Intn2000 net i)) in
      if request_ok net then
        match Do net sent with
        | Some resp => (Some resp, [sleep; Request sent])
        | None =>
            let '(resp, events) := attempts net turns' (i + 1) (S sent) in
            (resp, sleep :: Request sent :: events)
        end
      else
        let '(resp, events) := attempts net turns' (i + 1) sent in
        (resp, sleep :: events)
  end.

(** [strings.Contains] *)
Fixpoint Contains (s substr : string) : bool :=
  String.prefix substr s ||
  match s with
  | EmptyString => false
  | String _ s' => Contains s' substr
  end.

(** [strings.ToLower] on the ASCII letters; no other character has one of
    the letters of "text" and "html" as its lower case. *)
Definition lower (c : ascii) : ascii :=
  let n := N_of_ascii c in
  if (65 <=? n)%N && (n <=? 90)%N then ascii_of_N (n + 32) else c.

Fixpoint ToLower (s : string) : string :=
  match s with
  | EmptyString => EmptyString
  | String c s' => String (lower c) (ToLower s')
  end.

(** compress/gzip and compress/flate: what [io.ReadAll] gets from a reader
    of each that is handed a stream of bytes; [None] when the reader cannot
    be made or the read fails. *)
Record Codecs : Type := {
  gunzip : list Z -> option (list Z);
  inflate : list Z -> option (list Z)
}.

(** The part of [DownloadCapture] from the choice of the reader to
    [io.ReadAll(reader)]. The reader starts as the limit reader; a gzip or
    deflate reader that replaces it is made from [resp.Body]. *)
Definition read_all (codecs : Codecs) (resp : Response) : option (list Z) :=
  let limited := take (Z.to_nat MAP_CAPTURE_DOWNLOAD) (Body resp) in
  if Contains (Get (Header resp) "Content-Encoding") "gzip"
  then gunzip codecs (Body resp)
  else if Contains (Get (Header resp) "Content-Encoding") "deflate"
  then inflate codecs (Body resp)
  else Some limited.

(** The part of [DownloadCapture] after the loop. *)
Definition decode_response (codecs : Codecs) (resp : option Response) : string :=
  match resp with
  | None => EmptyString
  | Some resp =>
      match read_all codecs resp with
      | None => EmptyString
      | Some data =>
          let cType := ToLower (Get (Header resp) "Content-Type") in
          if Contains cType "text" || Contains cType "html"
          then string_of_bytes data
          else EmptyString
      end
  end.

(** [DownloadCapture]: the text returned and what was done to get it. *)
Definition DownloadCapture (codecs : Codecs) (net : Network) : string * list event :=
  let '(resp, events) := attempts net (Z.to_nat MAX_RETRIES) 0 0 in
  (decode_response codecs resp, events).

(** The requests among the events. *)
Definition requests (events : list event) : list nat :=
  omap (fun e => match e with Request n => Some n | Sleep _ => None end) events.

(** *** A transport and a codec for the examples *)

(** A stand-in for the decompressors in the examples: a codec whose stream
    is the data itself. *)
Definition stored : Codecs := {| gunzip := Some; inflate := Some |}.

Definition page_response (encoding : string) (body : list Z) : Response :=
  {| Header := {[ "Content-Type"%string := "text/html; charset=UTF-8"%string;
                  "Content-Encoding"%string := encoding ]};
     Body := body |}.

(** A transport that fails twice and would answer the third request. *)
Definition third_time_lucky : Network :=
  {| request_ok := true;
     Do n :=
       if decide (n = 2%nat)
       then Some (page_response EmptyString (bytes_of_string "<p>hi</p>"))
       else None;
     Intn2000 i := 7 |}.

(** *** RunJob *)

(** What [j.Info] says. *)
Inductive info : Type :=
| Unset
| Fetching (url year : string)
| ErrorFetchingCDX (url year : string) (err : utils.error)
| ProcessedSoFar (i total : Z)
| Processed (total : Z)
| CannotWrite (url : string) (err : utils.error).

(** The fields of a [Job] that [RunJob] writes; times are in nanoseconds. *)
Record Job : Type := {
  ID : string;
  URL : string;
  Year : string;
  State : string;
  Info : info;
  startTime : Z;
  Duration : Z
}.

(** [NewJobQueue]: every field is at its zero value. *)
Definition NewJobQueue : Job := {|
  ID := EmptyString; URL := EmptyString; Year := EmptyString;
  State := EmptyString; Info := Unset; startTime := 0; Duration := 0
|}.

Definition set_State (s : string) (j : Job) : Job :=
  {| ID := ID j; URL := URL j; Year := Year j; State := s; Info := Info j;
     startTime := startTime j; Duration := Duration j |}.

Definition set_Info (i : info) (j : Job) : Job :=
  {| ID := ID j; URL := URL j; Year := Year j; State := State j; Info := i;
     startTime := startTime j; Duration := Duration j |}.

Definition set_Duration (d : Z) (j : Job) : Job :=
  {| ID := ID j; URL := URL j; Year := Year j; State := State j; Info := Info j;
     startTime := startTime j; Duration := d |}.

(** [RunJob] up to the start of the goroutine, at time [now] and with the
    digest [jobID] of url, year and time. *)
Definition RunJob (j : Job) (url year : string) (now : Z) (jobID : string) : Job :=
  {| ID := jobID; URL := url; Year := year; State := "PENDING";
     Info := Fetching url year; startTime := now; Duration := Duration j |}.

(** The result map once [wg.Wait()] returns: the pairs that the calls of
    [GetCalculation] returned, in the order the workers stored them, without
    those with an empty half. *)
Definition finalResult (calculations : list (string * string)) : gmap string string :=
  foldl (fun result c =>
           if decide (c.1 <> EmptyString /\ c.2 <> EmptyString)
           then <[c.1 := c.2]> result else result)
        ∅ calculations.

(** What the store answers to the two writes of a job. *)
Record Writes : Type := { HSet : option utils.error; Expire : option utils.error }.

(** The goroutine of [RunJob]: [cdx] is what [FetchCDX] returned, and the
    clock reads [now] when the duration is taken. *)
Definition goroutine (j : Job) (url year : string)
    (cdx : list string * option utils.error)
    (calculations : list (string * string)) (store : Writes) (now : Z) : Job :=
  match cdx.2 with
  | Some err => set_Info (ErrorFetchingCDX url year err) (set_State "ERROR" j)
  | None =>
      let totalCaptures := Z.of_nat (length cdx.1) in
      let j := set_Info (Processed totalCaptures) (set_State "COMPLETE" j) in
      let finished := set_Duration (now - startTime j) j in
      if decide (size (finalResult calculations) <> 0%nat) then
        match HSet store with
        | Some err => set_Info (CannotWrite url err) j
        | None =>
            match Expire store with
            | Some err => set_Info (CannotWrite url err) j
            | None => finished
            end
        end
      else finished
  end.

(** The nanoseconds a call has slept. *)
Definition slept (events : list event) : Z :=
  foldr Z.add 0
    ((fun e => match e with Sleep nanoseconds => nanoseconds | Request _ => 0 end) <$> events).

(** *** GetCalculation *)

(** The package variables [mu] and [simhashMap]. *)
Record Shared : Type := { locked : bool; simhashMap : gmap string string }.

(** Where a call of [GetCalculation] stands: at its start, past the first
    [mu.Unlock()], at the second [mu.Lock()] with the fingerprint computed,
    or returned. *)
Inductive call : Type :=
| Called (capture : string)
| Unlocked (timestamp digest : string)
| Computed (timestamp digest encodedSimhash : string)
| Returned (timestamp simhash : string).

(** What a call does next: it goes on, it waits in [mu.Lock()] for a mutex
    that is held, it panics, or it is over. *)
Inductive progress : Type :=
| Goes (c : call) (s : Shared)
| Waits
| Panics
| Over.

Section calculation.
(** What [DownloadCapture] returns for a timestamp, and the entries of the
    map that [extractHTMLFeatures] makes of a text, in the order the [range]
    loop of the fingerprint visits them. *)
Context (download : string -> string).
Context (extractHTMLFeatures : string -> list (string * Z)).

(** One stretch of [GetCalculation], from one use of the mutex to the next.
    The found digest returns with the mutex locked. *)
Definition step (c : call) (s : Shared) : progress :=
  match c with
  | Called capture =>
      match utils.Split capture " " with
      | timestamp :: digest :: _ =>
          if locked s then Waits
          else
            match simhashMap s !! digest with
            | Some simhash =>
                Goes (Returned timestamp simhash)
                     {| locked := true; simhashMap := simhashMap s |}
            | None => Goes (Unlocked timestamp digest) s
            end
      | _ => Goes (Returned EmptyString EmptyString) s
      end
  | Unlocked timestamp digest =>
      let respData := download timestamp in
      if (String.length respData =? 0)%nat then Goes (Returned EmptyString EmptyString) s
      else
        let features := extractHTMLFeatures respData in
        if (length features =? 0)%nat then Goes (Returned EmptyString EmptyString) s
        else
          let simhashSize := 256 in
          match simhash.GetSimhash features simhashSize with
          | Some encodedSimhash => Goes (Computed timestamp digest encodedSimhash) s
          | None => Panics
          end
  | Computed timestamp digest encodedSimhash =>
      if locked s then Waits
      else
        Goes (Returned timestamp encodedSimhash)
             {| locked := false; simhashMap := <[digest := encodedSimhash]> (simhashMap s) |}
  | Returned _ _ => Over
  end.

(** The workers of a job, each in a call: one of them goes on. *)
Inductive pool_step : list call * Shared -> list call * Shared -> Prop :=
| pool_step_at (i : nat) (calls : list call) (s : Shared) (c c' : call) (s' : Shared) :
    calls !! i = Some c -> step c s = Goes c' s' ->
    pool_step (calls, s) (<[i := c']> calls, s').

End calculation.

(** The calls that are at a [mu.Lock()]. *)
Definition at_mutex (c : call) : Prop :=
  match c with
  | Called capture => (2 <= length (utils.Split capture " "))%nat
  | Computed _ _ _ => True
  | Unlocked _ _ | Returned _ _ => False
  end.

End job.


(** ** package utils: CompressCaptures *)

Module compress.

(** The value of a run of decimal digits; [None] when a byte is no digit. *)
Definition digits_value (cs : list ascii) : option Z :=
  foldl (fun acc c => n ← acc; d ← utils.digit_value c; Some (10 * n + d)) (Some 0) cs.

(** [atoi]: [strconv.Atoi] with its error dropped. An optional sign and
    decimal digits give their value, or the nearest [int] when the value is
    out of range; anything else gives 0. *)
Definition atoi (s : string) : Z :=
  match list_ascii_of_string s with
  | [] => 0
  | c :: cs =>
      let neg := Ascii.eqb c "-" in
      let ds := if Ascii.eqb c "-" || Ascii.eqb c "+" then cs else c :: cs in
      match ds with
      | [] => 0
      | _ =>
          match digits_value ds with
          | None => 0
          | Some n => Z.max int_min (Z.min int_max (if neg then - n else n))
          end
      end
  end.

(** The two maps that the first loop of [CompressCaptures] fills: the id of
    each fingerprint, and the pairs of time of day and id under year, month
    and day. *)
Record Groups : Type := {
  hashDict : gmap string Z;
  grouped : gmap Z (gmap Z (gmap Z (list (string * Z))))
}.

(** [atoi(ts[:4])], [atoi(ts[4:6])], [atoi(ts[6:8])] and [ts[8:]]. *)
Definition year_of (ts : string) : Z := atoi (substring 0 4 ts).
Definition month_of (ts : string) : Z := atoi (substring 4 2 ts).
Definition day_of (ts : string) : Z := atoi (substring 6 2 ts).
Definition hms_of (ts : string) : string := substring 8 (String.length ts - 8) ts.

(** One turn of the first loop; [None] is the panic of a slice expression
    on a timestamp shorter than the eight bytes of its date. *)
Definition group (g : Groups) (capture : utils.CaptureResult) : option Groups :=
  let ts := utils.Timestamp capture in
  let simhash := utils.Simhash capture in
  if (String.length ts <? 8)%nat then None
  else
    let year := year_of ts in
    let month := month_of ts in
    let day := day_of ts in
    let hms := hms_of ts in
    let hashDict :=
      match hashDict g !! simhash with
      | Some _ => hashDict g
      | None => <[simhash := Z.of_nat (size (hashDict g))]> (hashDict g)
      end in
    let hashID := default 0 (hashDict !! simhash) in
    let yc := default ∅ (grouped g !! year) in
    let mc := default ∅ (yc !! month) in
    let dc := default [] (mc !! day) in
    Some {| hashDict := hashDict;
            grouped := <[year := <[month := <[day := dc ++ [(hms, hashID)]]> mc]> yc]>
                         (grouped g) |}.

(** The first loop. *)
Fixpoint group_all (g : Groups) (captures : list utils.CaptureResult) : option Groups :=
  match captures with
  | [] => Some g
  | capture :: captures' => g' ← group g capture; group_all g' captures'
  end.

(** The entries of the first value returned: a day with its pairs, a month
    with its days, a year with its months. *)
Definition dayEntry : Type := Z * list (string * Z).
Definition monthEntry : Type := Z * list dayEntry.
Definition yearEntry : Type := Z * list monthEntry.

Section ranges.

(** The orders in which the [range] loops visit the maps keyed by numbers
    and the map keyed by fingerprints. *)
Context (rangeZ : forall V : Type, gmap Z V -> list (Z * V)).
Context (rangeS : gmap string Z -> list (string * Z)).

(** The second, nested loop. *)
Definition newCaptures (grouped : gmap Z (gmap Z (gmap Z (list (string * Z))))) :
    list yearEntry :=
  (fun y_yc : Z * _ =>
     (y_yc.1,
      (fun m_mc : Z * _ => (m_mc.1, rangeZ _ m_mc.2)) <$> rangeZ _ y_yc.2))
  <$> rangeZ _ grouped.

(** The last loop: [sortedHashes[id] = hash] into a slice of the length of
    the map. *)
Definition sortedHashes (hashDict : gmap string Z) : list string :=
  foldl (fun hashes hash_id => <[Z.to_nat hash_id.2 := hash_id.1]> hashes)
        (replicate (size hashDict) EmptyString) (rangeS hashDict).

Definition CompressCaptures (captures : list utils.CaptureResult) :
    option (list yearEntry * list string) :=
  g ← group_all {| hashDict := ∅; grouped := ∅ |} captures;
  Some (newCaptures (grouped g), sortedHashes (hashDict g)).

End ranges.

(** The distinct elements of a list in the order of their first
    occurrences. *)
Definition first_seen (hashes : list string) : list string :=
  foldl (fun seen h => if decide (h ∈ seen) then seen else seen ++ [h]) [] hashes.

(** A pair of time of day and id that the compressed form files under a
    year, a month and a day. *)
Definition filed (entries : list yearEntry) (year month day : Z) (pair : string * Z) : Prop :=
  exists months days pairs,
    (year, months) ∈ entries /\ (month, days) ∈ months /\
    (day, pairs) ∈ days /\ pair ∈ pairs.

(** What the first loop keeps true of the two maps, after the captures
    [done]: the ids are the positions in the list of the fingerprints seen
    so far, and every capture is filed under its date with the id of its
    fingerprint. *)
Definition grouped_so_far (done : list utils.CaptureResult) (g : Groups) : Prop :=
  let seen := first_seen (utils.Simhash <$> done) in
  size (hashDict g) = length seen /\
  (forall h id, hashDict g !! h = Some id <-> 0 <= id /\ seen !! Z.to_nat id = Some h) /\
  (forall c, c ∈ done ->
     exists id yc mc pairs,
       hashDict g !! utils.Simhash c = Some id /\
       grouped g !! year_of (utils.Timestamp c) = Some yc /\
       yc !! month_of (utils.Timestamp c) = Some mc /\
       mc !! day_of (utils.Timestamp c) = Some pairs /\
       (hms_of (utils.Timestamp c), id) ∈ pairs).

(** One order for the examples. *)
Definition some_order (V : Type) (m : gmap Z V) : list (Z * V) := map_to_list m.

Definition three_captures : list utils.CaptureResult :=
  [ {| utils.Timestamp := "20230101010101"; utils.Simhash := "AAA" |};
    {| utils.Timestamp := "20230101020202"; utils.Simhash := "AAA" |};
    {| utils.Timestamp := "20230215030303"; utils.Simhash := "BBB" |} ].

End compress.


(* ===================================================================== *)
(** * Part II: properties *)
(* ===================================================================== *)

Example blake2b_abc :
  simhash.hashFunc "abc" =
  0xba80a53f981c4d0d6a2797b69f12f6e94c212f14685ac4b74b12bb6fdbffa2d17d87c5392aab792dc252d5de4533cc9518d38aa8dbf1925ab92386edd4009923.
Proof. vm_compute. reflexivity. Qed.

Example blake2b_empty :
  simhash.hashFunc EmptyString =
  0x786a02f742015903c6c6fd852552d272912f4740e15847618a86e217f71f5419d25e1031afee585313896444934eb04b903a685b1448b755d56f701afe9be2ce.
Proof. vm_compute. reflexivity. Qed.

Example GetSimhash_example :
  simhash.GetSimhash [("a"%string, 3); ("b"%string, 5)] 16 = Some "Yrg="%string.
Proof. vm_compute. reflexivity. Qed.

(** The low bytes of the hashes of "a" and "b" are 00111100 and 01100010:
    with equal weights only bit 5 has a positive accumulator, and the bits
    where the two disagree are ties. *)
Example generateSimhash_ties :
  Z.land (simhash.hashFunc "a") 255 = 60 /\ Z.land (simhash.hashFunc "b") 255 = 98 /\
  simhash.generateSimhash [("a"%string, 3); ("b"%string, 3)] 8 = Some 32.
Proof. vm_compute. repeat split. Qed.

(** ** Go's [int] *)

Lemma wrap_small z : int_min <= z <= int_max -> wrap z = z.
Proof.
  unfold wrap, int_min, int_max. intros Hz.
  rewrite Z.mod_small by lia. lia.
Qed.

Lemma wrap_add_l a b : wrap (wrap a + b) = wrap (a + b).
Proof.
  unfold wrap.
  replace ((a + 2 ^ 63) mod 2 ^ 64 - 2 ^ 63 + b + 2 ^ 63)
    with ((a + 2 ^ 63) mod 2 ^ 64 + b) by lia.
  rewrite Zplus_mod_idemp_l. f_equal. f_equal. lia.
Qed.

Lemma wrap_range z : int_min <= wrap z <= int_max.
Proof.
  unfold wrap, int_min, int_max.
  pose proof (Z.mod_pos_bound (z + 2 ^ 63) (2 ^ 64)). lia.
Qed.

(** ** Bit arithmetic shared by the encoders *)

Lemma testbit_above b k n : 0 <= b < 2 ^ k -> k <= n -> Z.testbit b n = false.
Proof.
  intros Hb Hn. destruct (Z.eq_dec b 0) as [-> | Hb0]; [apply Z.bits_0 |].
  apply Z.bits_above_log2; [lia |]. apply Z.log2_lt_pow2; [lia |].
  apply Z.lt_le_trans with (2 ^ k); [lia | apply Z.pow_le_mono_r; lia].
Qed.

Lemma lor_shiftl_low a b k :
  0 <= k -> 0 <= b < 2 ^ k -> Z.lor (Z.shiftl a k) b = a * 2 ^ k + b.
Proof.
  intros Hk Hb. rewrite Z.shiftl_mul_pow2 by lia.
  assert (Hland : Z.land (a * 2 ^ k) b = 0).
  { apply Z.bits_inj'; intros n Hn. rewrite Z.land_spec, Z.bits_0.
    destruct (Z.lt_ge_cases n k) as [Hlt | Hge].
    - rewrite Z.mul_pow2_bits_low by lia. reflexivity.
    - rewrite (testbit_above b k n) by lia. apply andb_false_r. }
  rewrite <- Z.lxor_lor by exact Hland. symmetry.
  apply Z.add_nocarry_lxor. exact Hland.
Qed.

Lemma bits_below_bound value size :
  0 <= size -> 0 <= value ->
  (forall i, size <= i -> Z.testbit value i = false) ->
  value < 2 ^ size.
Proof.
  intros Hsize Hvalue Hbits.
  assert (value = value mod 2 ^ size) as ->.
  { apply Z.bits_inj'; intros n Hn.
    destruct (Z.lt_ge_cases n size) as [Hlt | Hge].
    - rewrite Z.mod_pow2_bits_low by lia. reflexivity.
    - rewrite Z.mod_pow2_bits_high by lia. apply Hbits. lia. }
  apply Z.mod_pos_bound. apply Z.pow_pos_nonneg; lia.
Qed.

(** ** The vector of [generateSimhash] *)

Section vector.
Import simhash.

Lemma length_vote h v vector i : length (vote h v vector i) = length vector.
Proof. unfold vote. destruct (Z.testbit h (Z.of_nat i)); apply length_insert. Qed.

Lemma length_vote_loop h v n vector :
  length (foldl (vote h v) vector (seq 0 n)) = length vector.
Proof.
  induction n as [| n IH]; [reflexivity |].
  rewrite seq_S, foldl_app. simpl. rewrite length_vote. exact IH.
Qed.

Lemma length_add_feature size vector kv :
  length (add_feature size vector kv) = length vector.
Proof.
  unfold add_feature. destruct (kv.2 <=? 0); [reflexivity |].
  apply length_vote_loop.
Qed.

Lemma length_vector size vector features :
  length (foldl (add_feature size) vector features) = length vector.
Proof.
  revert vector. induction features as [| kv features IH]; intros vector; simpl.
  - reflexivity.
  - rewrite IH. apply length_add_feature.
Qed.

(** The inner loop moves each of the first [n] positions once. *)
Lemma vote_loop_lookup h v n vector j x :
  (n <= length vector)%nat -> vector !! j = Some x ->
  foldl (vote h v) vector (seq 0 n) !! j =
  Some (if decide (j < n)%nat
        then wrap (x + (if Z.testbit h (Z.of_nat j) then v else - v))
        else x).
Proof.
  induction n as [| n IH]; intros Hn Hj.
  - simpl. rewrite Hj. reflexivity.
  - rewrite seq_S, foldl_app. simpl.
    specialize (IH ltac:(lia) Hj).
    pose proof (length_vote_loop h v n vector) as Hlen.
    set (vec := foldl (vote h v) vector (seq 0 n)) in *.
    unfold vote. destruct (decide (j = n)) as [-> | Hne].
    + rewrite decide_True in * by lia. rewrite decide_False in IH by lia.
      rewrite (list_lookup_total_correct _ _ _ IH).
      destruct (Z.testbit h (Z.of_nat n));
        (rewrite list_lookup_insert_eq by lia); reflexivity.
    + destruct (Z.testbit h (Z.of_nat n));
        (rewrite list_lookup_insert_ne by lia); rewrite IH;
        repeat case_decide; try lia; reflexivity.
Qed.

Lemma add_feature_lookup size vector kv j a :
  0 <= size -> length vector = Z.to_nat size ->
  vector !! j = Some (wrap a) ->
  add_feature size vector kv !! j
  = Some (wrap (a + contribution size (Z.of_nat j) kv)).
Proof.
  intros Hsize Hlen Hj. unfold add_feature, contribution.
  assert (j < Z.to_nat size)%nat as Hlt
    by (rewrite <- Hlen; eapply lookup_lt_Some; eassumption).
  destruct (Z.leb_spec kv.2 0) as [Hle | Hgt].
  - destruct (Z.ltb_spec 0 kv.2); [lia |]. rewrite Z.add_0_r. exact Hj.
  - destruct (Z.ltb_spec 0 kv.2); [| lia].
    erewrite vote_loop_lookup by (try eassumption; lia).
    rewrite decide_True by lia.
    destruct (Z.testbit _ _); rewrite wrap_add_l; reflexivity.
Qed.

Lemma accumulator_cons kv features size i :
  accumulator (kv :: features) size i
  = contribution size i kv + accumulator features size i.
Proof. reflexivity. Qed.

Lemma positive_weight_cons kv features :
  positive_weight (kv :: features) = Z.max 0 kv.2 + positive_weight features.
Proof. reflexivity. Qed.

Lemma vector_lookup size features : forall vector j a,
  0 <= size -> length vector = Z.to_nat size ->
  vector !! j = Some (wrap a) ->
  foldl (add_feature size) vector features !! j
  = Some (wrap (a + accumulator features size (Z.of_nat j))).
Proof.
  induction features as [| kv features IH]; intros vector j a Hsize Hlen Hj.
  - simpl. unfold accumulator. simpl. rewrite Z.add_0_r. exact Hj.
  - simpl.
    rewrite (IH _ j (a + contribution size (Z.of_nat j) kv)).
    + rewrite accumulator_cons. apply (f_equal Some), (f_equal wrap). lia.
    + exact Hsize.
    + rewrite length_add_feature. exact Hlen.
    + apply add_feature_lookup; assumption.
Qed.

Lemma initial_vector_lookup size features j :
  0 <= size -> (j < Z.to_nat size)%nat ->
  foldl (add_feature size) (replicate (Z.to_nat size) 0) features !! j
  = Some (wrap (accumulator features size (Z.of_nat j))).
Proof.
  intros Hsize Hj.
  erewrite (vector_lookup size features _ j 0); try assumption.
  - reflexivity.
  - apply length_replicate.
  - rewrite lookup_replicate_2 by exact Hj. reflexivity.
Qed.

Lemma accumulator_perm features1 features2 size i :
  features1 ≡ₚ features2 ->
  accumulator features1 size i = accumulator features2 size i.
Proof.
  induction 1; rewrite ?accumulator_cons; lia.
Qed.

Lemma positive_weight_perm features1 features2 :
  features1 ≡ₚ features2 -> positive_weight features1 = positive_weight features2.
Proof.
  induction 1; rewrite ?positive_weight_cons; lia.
Qed.

Lemma accumulator_bound features size i :
  - positive_weight features <= accumulator features size i <= positive_weight features.
Proof.
  induction features as [| kv features IH].
  - unfold accumulator, positive_weight. simpl. lia.
  - rewrite accumulator_cons, positive_weight_cons. unfold contribution.
    destruct (Z.ltb_spec 0 kv.2); [destruct (Z.testbit _ _) |]; lia.
Qed.

(** The closing loop sets exactly the bits of the positive positions. *)
Lemma closing_loop_testbit vector n j :
  0 <= j ->
  Z.testbit (foldl (set_positive vector) 0 (seq 0 n)) j
  = bool_decide (j < Z.of_nat n) && (0 <? vector !!! Z.to_nat j).
Proof.
  intros Hj. induction n as [| n IH].
  - simpl. rewrite Z.bits_0. rewrite bool_decide_eq_false_2 by lia. reflexivity.
  - rewrite seq_S, foldl_app. simpl. unfold set_positive at 1.
    destruct (Z.eq_dec j (Z.of_nat n)) as [-> | Hne].
    + rewrite Nat2Z.id in *. rewrite bool_decide_eq_false_2 in IH by lia.
      rewrite (bool_decide_eq_true_2 (Z.of_nat n < Z.of_nat (S n))) by lia.
      destruct (0 <? vector !!! n) eqn:Hpos.
      * rewrite Z.setbit_eqb by lia. rewrite Z.eqb_refl. reflexivity.
      * rewrite IH. reflexivity.
    + assert (bool_decide (j < Z.of_nat (S n)) = bool_decide (j < Z.of_nat n)) as ->
        by (apply bool_decide_ext; lia).
      destruct (0 <? vector !!! n).
      * rewrite Z.setbit_eqb by lia.
        destruct (Z.eqb_spec (Z.of_nat n) j); [lia |]. exact IH.
      * exact IH.
Qed.

Lemma closing_loop_nonneg vector n : 0 <= foldl (set_positive vector) 0 (seq 0 n).
Proof.
  induction n as [| n IH]; [simpl; lia |].
  rewrite seq_S, foldl_app. simpl. unfold set_positive at 1.
  destruct (0 <? vector !!! n); [| exact IH].
  unfold Z.setbit. apply Z.lor_nonneg. split; [exact IH |].
  rewrite Z.shiftl_1_l. apply Z.pow_nonneg. lia.
Qed.

(** What the fingerprint is, on every input: bit [i] is the sign of the
    accumulator as the 64-bit [int] holds it. *)
Lemma generateSimhash_bits features size :
  0 <= size ->
  exists value, generateSimhash features size = Some value /\ 0 <= value /\
    forall i, 0 <= i ->
      Z.testbit value i
      = bool_decide (i < size) && (0 <? wrap (accumulator features size i)).
Proof.
  intros Hsize. unfold generateSimhash.
  destruct (Z.ltb_spec size 0); [lia |].
  eexists. split; [reflexivity |]. split; [apply closing_loop_nonneg |].
  intros i Hi.
  rewrite closing_loop_testbit by exact Hi. rewrite Z2Nat.id by lia.
  destruct (decide (i < size)) as [Hlt | Hge].
  - rewrite !bool_decide_eq_true_2 by lia. simpl.
    pose proof (initial_vector_lookup size features (Z.to_nat i) Hsize ltac:(lia)) as Hv.
    rewrite Z2Nat.id in Hv by lia.
    rewrite (list_lookup_total_correct _ _ _ Hv). reflexivity.
  - rewrite !bool_decide_eq_false_2 by lia. reflexivity.
Qed.

Lemma generateSimhash_bound features size value :
  0 <= size -> generateSimhash features size = Some value ->
  0 <= value < 2 ^ size.
Proof.
  intros Hsize Hgen.
  destruct (generateSimhash_bits features size Hsize) as (value' & Hgen' & Hpos & Hbits).
  assert (value' = value) as -> by congruence.
  split; [exact Hpos |].
  apply bits_below_bound; try assumption.
  intros i Hi. rewrite Hbits by lia.
  rewrite bool_decide_eq_false_2 by lia. reflexivity.
Qed.

(** An entry whose weight is not positive leaves the vector alone. *)
Lemma vector_skips_nonpositive size features : forall vector,
  foldl (add_feature size) vector (filter (fun kv => 0 < kv.2) features)
  = foldl (add_feature size) vector features.
Proof.
  induction features as [| kv features IH]; intros vector; [reflexivity |].
  rewrite filter_cons. case_decide as Hkv; simpl.
  - apply IH.
  - rewrite IH. f_equal. unfold add_feature.
    destruct (Z.leb_spec kv.2 0); [reflexivity | lia].
Qed.

Lemma generateSimhash_perm features1 features2 size :
  features1 ≡ₚ features2 ->
  generateSimhash features1 size = generateSimhash features2 size.
Proof.
  intros Hperm. unfold generateSimhash.
  destruct (Z.ltb_spec size 0); [reflexivity |].
  assert (foldl (add_feature size) (replicate (Z.to_nat size) 0) features1
          = foldl (add_feature size) (replicate (Z.to_nat size) 0) features2) as ->;
    [| reflexivity].
  apply list_eq. intros j.
  destruct (decide (j < Z.to_nat size)%nat) as [Hj | Hj].
  - rewrite !initial_vector_lookup by lia.
    rewrite (accumulator_perm _ _ _ _ Hperm). reflexivity.
  - rewrite !lookup_ge_None_2; [reflexivity | |];
      rewrite length_vector, length_replicate; lia.
Qed.

End vector.

(** ** Packing: [FillBytes] and the byte reversal *)

Section packing.
Import simhash.

Lemma length_be_bytes n x : length (be_bytes n x) = n.
Proof.
  revert x. induction n as [| n IH]; intros x; simpl; [reflexivity |].
  rewrite length_app, IH. simpl. lia.
Qed.

Lemma be_bytes_are_bytes n x : Forall is_byte (be_bytes n x).
Proof.
  revert x. induction n as [| n IH]; intros x; simpl; [constructor |].
  apply Forall_app. split; [apply IH |].
  constructor; [| constructor]. unfold is_byte. apply Z.mod_pos_bound. lia.
Qed.

Lemma SetBytes_snoc bs b : SetBytes (bs ++ [b]) = 256 * SetBytes bs + b.
Proof. unfold SetBytes. rewrite foldl_app. reflexivity. Qed.

Lemma SetBytes_be_bytes n x : SetBytes (be_bytes n x) = x mod 256 ^ Z.of_nat n.
Proof.
  revert x. induction n as [| n IH]; intros x.
  - simpl. rewrite Z.mod_1_r. reflexivity.
  - cbn [be_bytes]. rewrite SetBytes_snoc, IH.
    rewrite Nat2Z.inj_succ, Z.pow_succ_r by lia.
    rewrite Z.rem_mul_r by lia. lia.
Qed.

Lemma FillBytes_fits x n :
  0 <= x < 256 ^ Z.of_nat n ->
  FillBytes x n = Some (be_bytes n x) /\ SetBytes (be_bytes n x) = x.
Proof.
  intros Hx. unfold FillBytes. rewrite Z.abs_eq by lia.
  destruct (Z.ltb_spec x (256 ^ Z.of_nat n)); [| lia].
  split; [reflexivity |]. rewrite SetBytes_be_bytes. apply Z.mod_small. exact Hx.
Qed.

Lemma swap_lookup i j bytes p :
  0 <= i < Z.of_nat (length bytes) -> 0 <= j < Z.of_nat (length bytes) ->
  swap i j bytes !! p =
  if decide (p = Z.to_nat j) then bytes !! Z.to_nat i
  else if decide (p = Z.to_nat i) then bytes !! Z.to_nat j
  else bytes !! p.
Proof.
  intros Hi Hj. unfold swap.
  destruct (lookup_lt_is_Some_2 bytes (Z.to_nat i) ltac:(lia)) as [bi Hbi].
  destruct (lookup_lt_is_Some_2 bytes (Z.to_nat j) ltac:(lia)) as [bj Hbj].
  rewrite (list_lookup_total_correct _ _ _ Hbi), (list_lookup_total_correct _ _ _ Hbj).
  destruct (decide (p = Z.to_nat j)) as [-> | Hpj].
  - rewrite list_lookup_insert_eq by (rewrite length_insert; lia). congruence.
  - rewrite list_lookup_insert_ne by congruence.
    destruct (decide (p = Z.to_nat i)) as [-> | Hpi].
    + rewrite list_lookup_insert_eq by lia. congruence.
    + rewrite list_lookup_insert_ne by congruence. reflexivity.
Qed.

Lemma length_swap i j bytes : length (swap i j bytes) = length bytes.
Proof. unfold swap. rewrite !length_insert. reflexivity. Qed.

(** The loop mirrors the window between its two indices. *)
Lemma to_little_endian_lookup turns : forall i j bytes p,
  0 <= i -> i + j = Z.of_nat (length bytes) - 1 -> j - i <= Z.of_nat turns ->
  to_little_endian turns i j bytes !! p =
  if decide (i <= Z.of_nat p <= j)
  then bytes !! (length bytes - 1 - p)%nat
  else bytes !! p.
Proof.
  induction turns as [| turns IH]; intros i j bytes p Hi Hsum Hturns; simpl.
  - case_decide as Hp; [| reflexivity].
    f_equal. lia.
  - destruct (Z.ltb_spec i j) as [Hlt | Hge].
    + rewrite IH by (rewrite ?length_swap; lia).
      rewrite length_swap, !swap_lookup by lia.
      repeat case_decide; try lia; try reflexivity; f_equal; lia.
    + case_decide as Hp; [| reflexivity]. f_equal. lia.
Qed.

Lemma to_little_endian_reverse bytes :
  to_little_endian (length bytes) 0 (Z.of_nat (length bytes) - 1) bytes
  = reverse bytes.
Proof.
  apply list_eq. intros p.
  rewrite to_little_endian_lookup by lia.
  destruct (decide (p < length bytes)%nat) as [Hp | Hp].
  - rewrite decide_True by lia. rewrite reverse_lookup by exact Hp.
    f_equal. lia.
  - rewrite decide_False by lia.
    rewrite !lookup_ge_None_2; [reflexivity | |]; rewrite ?length_reverse; lia.
Qed.

Lemma packSimhashToBytes_fits value size :
  0 <= size -> 0 <= value < 256 ^ (size / 8) ->
  exists bytes, packSimhashToBytes value size = Some bytes /\
    length bytes = Z.to_nat (size / 8) /\ Forall is_byte bytes /\
    SetBytes (reverse bytes) = value.
Proof.
  intros Hsize Hvalue. unfold packSimhashToBytes.
  rewrite Z.quot_div_nonneg by lia.
  assert (0 <= size / 8) by (apply Z.div_pos; lia).
  destruct (Z.ltb_spec (size / 8) 0); [lia |].
  destruct (FillBytes_fits value (Z.to_nat (size / 8))) as [Hfill Hset];
    [rewrite Z2Nat.id by lia; exact Hvalue |].
  rewrite Hfill. simpl. rewrite to_little_endian_reverse.
  eexists. split; [reflexivity |].
  rewrite length_reverse, length_be_bytes, reverse_involutive.
  split; [reflexivity |]. split; [| exact Hset].
  apply Forall_reverse, be_bytes_are_bytes.
Qed.

End packing.

(** ** encoding/base64: decoding undoes encoding *)

Section base64_round_trip.
Import base64.

Lemma decode_encode i :
  0 <= i < 64 -> decode (encode i) = Some i /\ Ascii.eqb (encode i) padChar = false.
Proof.
  intros Hi. assert (exists k, i = Z.of_nat k /\ (k < 64)%nat) as (k & -> & Hk)
    by (exists (Z.to_nat i); lia).
  do 64 (destruct k as [| k]; [split; reflexivity |]). lia.
Qed.

Lemma sextet_range val shift : 0 <= Z.land (Z.shiftr val shift) 0x3F < 64.
Proof.
  change 0x3F with (Z.ones 6). rewrite Z.land_ones by lia.
  apply Z.mod_pos_bound. lia.
Qed.

Lemma decode_digit val shift :
  decode (digit val shift) = Some (Z.land (Z.shiftr val shift) 0x3F).
Proof. apply decode_encode, sextet_range. Qed.

Lemma digit_not_pad val shift : Ascii.eqb (digit val shift) padChar = false.
Proof. apply decode_encode, sextet_range. Qed.

Lemma quantum_value b0 b1 b2 :
  is_byte b0 -> is_byte b1 -> is_byte b2 ->
  quantum b0 b1 b2 = b0 * 65536 + b1 * 256 + b2.
Proof.
  unfold is_byte, quantum. intros H0 H1 H2.
  rewrite (Z.shiftl_mul_pow2 b1) by lia. rewrite (lor_shiftl_low b0) by lia.
  replace (b0 * 2 ^ 16 + b1 * 2 ^ 8) with (Z.shiftl (b0 * 256 + b1) 8)
    by (rewrite Z.shiftl_mul_pow2; lia).
  rewrite lor_shiftl_low by lia. lia.
Qed.

Lemma sextets_value d0 d1 d2 d3 :
  0 <= d1 < 64 -> 0 <= d2 < 64 -> 0 <= d3 < 64 ->
  Z.lor (Z.lor (Z.lor (Z.shiftl d0 18) (Z.shiftl d1 12)) (Z.shiftl d2 6)) d3
  = d0 * 262144 + d1 * 4096 + d2 * 64 + d3.
Proof.
  intros H1 H2 H3.
  rewrite (Z.shiftl_mul_pow2 d1), (Z.shiftl_mul_pow2 d2) by lia.
  rewrite (lor_shiftl_low d0) by lia.
  replace (d0 * 2 ^ 18 + d1 * 2 ^ 12) with (Z.shiftl (d0 * 64 + d1) 12)
    by (rewrite Z.shiftl_mul_pow2; lia).
  rewrite lor_shiftl_low by lia.
  replace ((d0 * 64 + d1) * 2 ^ 12 + d2 * 2 ^ 6)
    with (Z.shiftl ((d0 * 64 + d1) * 64 + d2) 6)
    by (rewrite Z.shiftl_mul_pow2; lia).
  rewrite lor_shiftl_low by lia. lia.
Qed.

Ltac to_arithmetic :=
  unfold byte_at; change 0xFF with (Z.ones 8); change 0x3F with (Z.ones 6);
  rewrite ?Z.land_ones, ?Z.shiftr_div_pow2, ?Z.shiftr_0_r by lia;
  change (2 ^ 18) with 262144; change (2 ^ 16) with 65536;
  change (2 ^ 12) with 4096; change (2 ^ 8) with 256; change (2 ^ 6) with 64;
  change (2 ^ 0) with 1.

(** A full group: the four digits give the three bytes back. *)
Lemma group_round_trip b0 b1 b2 :
  is_byte b0 -> is_byte b1 -> is_byte b2 ->
  let val := quantum b0 b1 b2 in
  let val' :=
    Z.lor (Z.lor (Z.lor (Z.shiftl (Z.land (Z.shiftr val 18) 0x3F) 18)
                        (Z.shiftl (Z.land (Z.shiftr val 12) 0x3F) 12))
                 (Z.shiftl (Z.land (Z.shiftr val 6) 0x3F) 6))
          (Z.land (Z.shiftr val 0) 0x3F) in
  byte_at val' 16 = b0 /\ byte_at val' 8 = b1 /\ byte_at val' 0 = b2.
Proof.
  intros H0 H1 H2. cbv zeta.
  rewrite sextets_value by apply sextet_range.
  rewrite quantum_value by assumption. unfold is_byte in *.
  to_arithmetic. repeat split; Z.div_mod_to_equations; lia.
Qed.

(** Two closing bytes: three digits and one pad. *)
Lemma pair_round_trip b0 b1 :
  is_byte b0 -> is_byte b1 ->
  let val := Z.lor (Z.shiftl b0 16) (Z.shiftl b1 8) in
  let val' :=
    Z.lor (Z.lor (Z.shiftl (Z.land (Z.shiftr val 18) 0x3F) 18)
                 (Z.shiftl (Z.land (Z.shiftr val 12) 0x3F) 12))
          (Z.shiftl (Z.land (Z.shiftr val 6) 0x3F) 6) in
  byte_at val' 16 = b0 /\ byte_at val' 8 = b1.
Proof.
  intros H0 H1. cbv zeta.
  pose proof (quantum_value b0 b1 0 H0 H1 ltac:(unfold is_byte; lia)) as Hq.
  unfold quantum in Hq. rewrite Z.lor_0_r in Hq. rewrite Hq.
  match goal with |- byte_at ?v _ = _ /\ _ =>
    rewrite <- (Z.lor_0_r v) end.
  rewrite sextets_value by (apply sextet_range || lia).
  unfold is_byte in *. to_arithmetic. split; Z.div_mod_to_equations; lia.
Qed.

(** One closing byte: two digits and two pads. *)
Lemma single_round_trip b0 :
  is_byte b0 ->
  let val := Z.shiftl b0 16 in
  let val' :=
    Z.lor (Z.shiftl (Z.land (Z.shiftr val 18) 0x3F) 18)
          (Z.shiftl (Z.land (Z.shiftr val 12) 0x3F) 12) in
  byte_at val' 16 = b0.
Proof.
  intros H0. cbv zeta. unfold is_byte in *.
  rewrite (Z.shiftl_mul_pow2 (Z.land _ _) 12) by lia.
  rewrite lor_shiftl_low
    by (try lia; pose proof (sextet_range (Z.shiftl b0 16) 12); lia).
  rewrite (Z.shiftl_mul_pow2 b0) by lia.
  to_arithmetic. Z.div_mod_to_equations; lia.
Qed.

Lemma DecodeString_EncodeToString_upto n : forall src,
  (length src <= n)%nat -> Forall is_byte src ->
  DecodeString (EncodeToString src) = Some src.
Proof.
  induction n as [| n IH]; intros src Hlen Hbytes.
  - destruct src; [reflexivity | simpl in Hlen; lia].
  - destruct src as [| b0 [| b1 [| b2 rest]]].
    + reflexivity.
    + apply Forall_cons in Hbytes as [H0 _].
      cbn [EncodeToString DecodeString].
      rewrite !decode_digit. cbn [mbind option_bind].
      rewrite Ascii.eqb_refl.
      rewrite (single_round_trip b0 H0). reflexivity.
    + apply Forall_cons in Hbytes as [H0 Hbytes].
      apply Forall_cons in Hbytes as [H1 _].
      cbn [EncodeToString DecodeString].
      rewrite !decode_digit. cbn [mbind option_bind].
      rewrite Ascii.eqb_refl, digit_not_pad.
      destruct (pair_round_trip b0 b1 H0 H1) as [-> ->]. reflexivity.
    + apply Forall_cons in Hbytes as [H0 Hbytes].
      apply Forall_cons in Hbytes as [H1 Hbytes].
      apply Forall_cons in Hbytes as [H2 Hbytes].
      cbn [EncodeToString DecodeString].
      rewrite !decode_digit. cbn [mbind option_bind].
      rewrite digit_not_pad.
      rewrite IH by (simpl in Hlen; try lia; assumption).
      cbn [mbind option_bind].
      destruct (group_round_trip b0 b1 b2 H0 H1 H2) as (-> & -> & ->).
      reflexivity.
Qed.

Lemma DecodeString_EncodeToString src :
  Forall is_byte src -> DecodeString (EncodeToString src) = Some src.
Proof. apply (DecodeString_EncodeToString_upto (length src)). reflexivity. Qed.

End base64_round_trip.

(** ** The fingerprint encoder *)

Section fingerprint.
Import simhash.

(** C1, as amended. For every feature set whose positive weights sum to at
    most [int_max], every size that is not negative and every position [i]
    below the size, [generateSimhash] returns a value whose bit [i] is 1
    exactly when the accumulator at [i] is strictly positive (so a zero
    accumulator gives bit 0); and the entries whose weight is not positive
    can be dropped from the feature set without changing the value. *)
Theorem generateSimhash_bit_iff_accumulator
    (features : gmap string Z) (order : list (string * Z)) (size i : Z) :
  range_order features order ->
  0 <= size -> 0 <= i < size ->
  positive_weight (map_to_list features) <= int_max ->
  exists value,
    generateSimhash order size = Some value /\
    (Z.testbit value i = true <-> 0 < accumulator (map_to_list features) size i) /\
    generateSimhash (filter (fun kv => 0 < kv.2) order) size = Some value.
Proof.
  intros Horder Hsize Hi Hweight.
  destruct (generateSimhash_bits order size Hsize) as (value & Hgen & _ & Hbits).
  exists value. split; [exact Hgen |]. split.
  - rewrite Hbits by lia. rewrite bool_decide_eq_true_2 by lia. simpl.
    rewrite (accumulator_perm _ _ _ _ Horder).
    pose proof (accumulator_bound (map_to_list features) size i) as Hacc.
    rewrite wrap_small by (unfold int_min, int_max in *; lia).
    apply Z.ltb_lt.
  - rewrite <- Hgen. unfold generateSimhash.
    rewrite vector_skips_nonpositive. reflexivity.
Qed.

Lemma generateSimhash_bit_iff_accumulator_witness :
  exists value,
    generateSimhash [("a"%string, 3); ("b"%string, 5)] 16 = Some value /\
    (Z.testbit value 5 = true <->
     0 < accumulator (map_to_list ({[ "a"%string := 3; "b"%string := 5 ]} : gmap string Z)) 16 5) /\
    generateSimhash (filter (fun kv => 0 < kv.2) [("a"%string, 3); ("b"%string, 5)]) 16
    = Some value.
Proof.
  apply (generateSimhash_bit_iff_accumulator
           {[ "a"%string := 3; "b"%string := 5 ]} [("a"%string, 3); ("b"%string, 5)] 16 5).
  - unfold range_order. vm_compute. reflexivity.
  - lia.
  - lia.
  - vm_compute. discriminate.
Defined.

(** C1, the claim as stated fails where the 64-bit accumulator wraps around:
    the terms "a" and "b" both have bit 5 of their hash set, so with weight
    [int_max] each the sum at position 5 is [2^64 - 2], which the [int]
    holds as [-2], and bit 5 of the fingerprint is 0. *)
Lemma generateSimhash_wraps_counterexample :
  let features : gmap string Z := {[ "a"%string := int_max; "b"%string := int_max ]} in
  let order := [("a"%string, int_max); ("b"%string, int_max)] in
  range_order features order /\
  generateSimhash order 8 = Some 129 /\
  accumulator (map_to_list features) 8 5 = 2 ^ 64 - 2 /\
  ~ (Z.testbit 129 5 = true <-> 0 < accumulator (map_to_list features) 8 5).
Proof.
  cbv zeta. split; [unfold range_order; vm_compute; reflexivity |].
  split; [vm_compute; reflexivity |].
  assert (accumulator
            (map_to_list ({[ "a"%string := int_max; "b"%string := int_max ]} : gmap string Z))
            8 5 = 2 ^ 64 - 2) as Hacc by (vm_compute; reflexivity).
  split; [exact Hacc |].
  rewrite Hacc. intros [_ Hback].
  assert (Z.testbit 129 5 = true) as Hbit by (apply Hback; reflexivity).
  vm_compute in Hbit. discriminate.
Qed.

(** C2. For every feature set and size, any two orders in which the [range]
    loop may visit the feature map give the same result of [GetSimhash]. *)
Theorem GetSimhash_deterministic
    (features : gmap string Z) (size : Z) (order1 order2 : list (string * Z)) :
  range_order features order1 -> range_order features order2 ->
  GetSimhash order1 size = GetSimhash order2 size.
Proof.
  unfold range_order. intros H1 H2. unfold GetSimhash.
  rewrite (generateSimhash_perm order1 order2); [reflexivity |].
  rewrite H1, H2. reflexivity.
Qed.

Lemma GetSimhash_deterministic_witness :
  GetSimhash [("a"%string, 3); ("b"%string, 5)] 16
  = GetSimhash [("b"%string, 5); ("a"%string, 3)] 16.
Proof.
  apply (GetSimhash_deterministic {[ "a"%string := 3; "b"%string := 5 ]}).
  - unfold range_order. vm_compute. reflexivity.
  - unfold range_order. vm_compute. apply perm_swap.
Defined.

(** C3. For every feature set, in whichever order its entries are visited,
    and every size that is a non-negative multiple of 8, [GetSimhash] returns
    a string whose base64 decoding has exactly size/8 bytes, and these bytes,
    reversed and read as a big-endian number, are the value that
    [generateSimhash] produced. *)
Theorem GetSimhash_round_trip (features : list (string * Z)) (size : Z) :
  0 <= size -> size mod 8 = 0 ->
  exists value text bytes,
    generateSimhash features size = Some value /\
    GetSimhash features size = Some text /\
    base64.DecodeString text = Some bytes /\
    Z.of_nat (length bytes) = size / 8 /\
    SetBytes (reverse bytes) = value.
Proof.
  intros Hsize Hmod.
  destruct (generateSimhash_bits features size Hsize) as (value & Hgen & _ & _).
  pose proof (generateSimhash_bound features size value Hsize Hgen) as Hbound.
  assert (0 <= size / 8) as Hdiv by (apply Z.div_pos; lia).
  assert (2 ^ size = 256 ^ (size / 8)) as Hpow.
  { change 256 with (2 ^ 8). rewrite <- Z.pow_mul_r by lia.
    f_equal. apply Z.div_exact in Hmod; lia. }
  destruct (packSimhashToBytes_fits value size Hsize) as (bytes & Hpack & Hlen & Hbytes & Hset);
    [lia |].
  exists value, (base64.EncodeToString bytes), bytes.
  split; [exact Hgen |]. split.
  - unfold GetSimhash, encodeSimhashToBase64. rewrite Hgen. simpl.
    rewrite Hpack. reflexivity.
  - split; [apply DecodeString_EncodeToString; exact Hbytes |].
    split; [lia | exact Hset].
Qed.

Lemma GetSimhash_round_trip_witness :
  exists value text bytes,
    generateSimhash [("a"%string, 3); ("b"%string, 5)] 16 = Some value /\
    GetSimhash [("a"%string, 3); ("b"%string, 5)] 16 = Some text /\
    base64.DecodeString text = Some bytes /\
    Z.of_nat (length bytes) = 16 / 8 /\
    SetBytes (reverse bytes) = value.
Proof.
  apply GetSimhash_round_trip.
  - lia.
  - reflexivity.
Defined.

End fingerprint.

(** ** The feature extractor: run-length counting of the sorted tokens *)

Section word_counts.
Import job.

Example wordCounts_example :
  wordCounts ["b"; "a"; "b"; "c"; "b"; "a"]%string
  = {[ "a"%string := 2; "b"%string := 3; "c"%string := 1 ]}.
Proof. vm_compute. reflexivity. Qed.

Lemma occurrences_nil word : occurrences word [] = 0.
Proof. reflexivity. Qed.

Lemma occurrences_cons word w words :
  occurrences word (w :: words)
  = (if decide (word = w) then 1 else 0) + occurrences word words.
Proof.
  unfold occurrences. rewrite filter_cons.
  destruct (decide (word = w)); simpl; lia.
Qed.

Lemma occurrences_app word words1 words2 :
  occurrences word (words1 ++ words2)
  = occurrences word words1 + occurrences word words2.
Proof. unfold occurrences. rewrite filter_app, length_app. lia. Qed.

Lemma occurrences_replicate word w n :
  occurrences word (replicate n w)
  = if decide (word = w) then Z.of_nat n else 0.
Proof.
  induction n as [| n IH]; simpl.
  - rewrite occurrences_nil. case_decide; reflexivity.
  - rewrite occurrences_cons, IH. case_decide; lia.
Qed.

Lemma occurrences_not_elem word words : word ∉ words -> occurrences word words = 0.
Proof.
  induction words as [| w words IH]; intros Hnot; [reflexivity |].
  rewrite occurrences_cons, IH by set_solver.
  rewrite decide_False by set_solver. reflexivity.
Qed.

Lemma occurrences_perm word words1 words2 :
  words1 ≡ₚ words2 -> occurrences word words1 = occurrences word words2.
Proof. unfold occurrences. intros ->. reflexivity. Qed.

(** The inner loop counts the copies of [word] that open [rest]. *)
Lemma run_spec word : forall rest count,
  exists n suffix,
    rest = replicate n word ++ suffix /\
    run word count rest = (count + Z.of_nat n, suffix) /\
    head suffix <> Some word.
Proof.
  induction rest as [| w rest IH]; intros count; simpl.
  - exists 0%nat, []. simpl. rewrite Z.add_0_r. repeat split; congruence.
  - destruct (decide (w = word)) as [-> | Hne].
    + destruct (IH (count + 1)) as (n & suffix & Hrest & Hrun & Hhead).
      exists (S n), suffix. simpl. rewrite Hrun, <- Hrest.
      repeat split; [f_equal; lia | exact Hhead].
    + exists 0%nat, (w :: rest). simpl. rewrite Z.add_0_r.
      repeat split; congruence.
Qed.

(** In sorted tokens the copies of a word are adjacent: none follows a run. *)
Lemma sorted_run_complete word n suffix :
  StronglySorted String.le (word :: replicate n word ++ suffix) ->
  head suffix <> Some word -> word ∉ suffix.
Proof.
  intros Hsorted Hhead Hin.
  destruct suffix as [| w suffix]; [set_solver |].
  assert (w <> word) as Hne by (simpl in Hhead; congruence).
  apply StronglySorted_cons in Hsorted as [Hle Hsorted].
  apply StronglySorted_app_1_r in Hsorted.
  apply StronglySorted_cons in Hsorted as [Hw _].
  rewrite Forall_app, Forall_cons in Hle. destruct Hle as (_ & Hword_w & _).
  apply elem_of_cons in Hin as [Heq | Hin]; [congruence |].
  rewrite Forall_forall in Hw. specialize (Hw word Hin).
  apply Hne. apply (anti_symm String.le); assumption.
Qed.

Lemma count_runs_lookup n : forall words counts k,
  (length words <= n)%nat -> StronglySorted String.le words ->
  count_runs counts words !! k
  = if decide (k ∈ words) then Some (occurrences k words) else counts !! k.
Proof.
  induction n as [| n IH]; intros words counts k Hlen Hsorted.
  - destruct words; [| simpl in Hlen; lia].
    simp count_runs. rewrite decide_False by set_solver. reflexivity.
  - destruct words as [| word rest].
    { simp count_runs. rewrite decide_False by set_solver. reflexivity. }
    simp count_runs.
    destruct (run_spec word rest 1) as (m & suffix & Hrest & Hrun & Hhead).
    rewrite Hrun. simpl. subst rest.
    pose proof (sorted_run_complete word m suffix Hsorted Hhead) as Hword.
    assert (StronglySorted String.le suffix) as Hsuffix.
    { apply StronglySorted_cons in Hsorted as [_ Hsorted].
      apply StronglySorted_app_1_r in Hsorted. exact Hsorted. }
    rewrite IH
      by (try assumption; simpl in Hlen; rewrite length_app in Hlen; lia).
    rewrite occurrences_cons, occurrences_app, occurrences_replicate.
    destruct (decide (k = word)) as [-> | Hne].
    + rewrite decide_False by exact Hword.
      rewrite lookup_insert_eq, occurrences_not_elem by exact Hword.
      rewrite decide_True by set_solver. f_equal; lia.
    + rewrite lookup_insert_ne by congruence.
      assert (k ∈ word :: replicate m word ++ suffix <-> k ∈ suffix) as Hiff.
      { rewrite elem_of_cons, elem_of_app, elem_of_replicate. intuition congruence. }
      destruct (decide (k ∈ suffix)) as [Hin | Hnot].
      * rewrite decide_True by (apply Hiff; exact Hin). f_equal; lia.
      * rewrite decide_False by (rewrite Hiff; exact Hnot). reflexivity.
Qed.

Lemma count_directly_lookup words : forall (counts : gmap string Z) k,
  foldl (fun counts word => <[word := default 0 (counts !! word) + 1]> counts)
        counts words !! k
  = if decide (k ∈ words)
    then Some (default 0 (counts !! k) + occurrences k words)
    else counts !! k.
Proof.
  induction words as [| word words IH]; intros counts k; cbn [foldl].
  - rewrite decide_False by set_solver. reflexivity.
  - rewrite IH, occurrences_cons.
    destruct (decide (k = word)) as [-> | Hne].
    + rewrite lookup_insert_eq. simpl.
      rewrite (decide_True (P := word ∈ word :: words)) by set_solver.
      destruct (decide (word ∈ words)) as [Hin | Hnot].
      * f_equal; lia.
      * rewrite occurrences_not_elem by exact Hnot. f_equal; lia.
    + rewrite lookup_insert_ne by congruence.
      assert (k ∈ word :: words <-> k ∈ words) as Hiff
        by (rewrite elem_of_cons; intuition congruence).
      destruct (decide (k ∈ words)) as [Hin | Hnot].
      * rewrite decide_True by (apply Hiff; exact Hin). f_equal; lia.
      * rewrite decide_False by (rewrite Hiff; exact Hnot). reflexivity.
Qed.

(** C4. For every list of tokens, the weight map that [extractHTMLFeatures]
    builds by sorting the tokens and counting each run of equal neighbours
    is the map that one counting pass over the unsorted tokens builds. *)
Theorem wordCounts_is_frequency_count (words : list string) :
  wordCounts words = count_directly words.
Proof.
  apply map_eq. intros k. unfold wordCounts, count_directly, sort_Strings.
  rewrite (count_runs_lookup (length (merge_sort String.le words)))
    by (try reflexivity; apply StronglySorted_merge_sort; apply _).
  rewrite count_directly_lookup, lookup_empty. simpl.
  pose proof (merge_sort_Permutation String.le words) as Hperm.
  rewrite (occurrences_perm k _ _ Hperm).
  destruct (decide (k ∈ words)) as [Hin | Hnot].
  - rewrite decide_True by (rewrite Hperm; exact Hin). f_equal; lia.
  - rewrite decide_False by (rewrite Hperm; exact Hnot). reflexivity.
Qed.

End word_counts.

(** ** The query layer *)

Section queries.
Import utils.

(** *** The query by year *)

Lemma timestamps_of_year_marker year : forall timestamps timeStampsToFetch,
  year ∈ timestamps -> timestamps_of_year year timestamps timeStampsToFetch = None.
Proof.
  induction timestamps as [| ts timestamps IH]; intros acc Hin; [set_solver |].
  simpl. destruct (decide (ts = year)) as [_ | Hne]; [reflexivity |].
  apply elem_of_cons in Hin as [-> | Hin]; [congruence |].
  destruct (String.prefix year ts); apply IH; exact Hin.
Qed.

(** Whatever the client, a field named as the year ends the query. *)
Lemma YearSimhash_marker_any_client arch redisClient url year page perPage timestamps :
  url <> EmptyString -> year <> EmptyString ->
  HKeys redisClient (Surt url) = (timestamps, None) ->
  year ∈ timestamps ->
  YearSimhash arch redisClient url year page perPage = Some ([], Some NO_CAPTURES).
Proof.
  intros Hurl Hyear Hkeys Hin. unfold YearSimhash.
  rewrite decide_False by tauto. rewrite Hkeys.
  case_decide; [reflexivity |].
  rewrite timestamps_of_year_marker; [reflexivity |].
  unfold sort_Strings. rewrite merge_sort_Permutation. exact Hin.
Qed.

Lemma HKeys_live db key h f :
  db !! key = Some h -> is_Some (h !! f) ->
  exists timestamps, HKeys (live db) key = (timestamps, None) /\ f ∈ timestamps.
Proof.
  intros Hkey [v Hf]. simpl. rewrite Hkey. simpl.
  eexists. split; [reflexivity |].
  apply list_elem_of_fmap. exists (f, v). split; [reflexivity |].
  apply elem_of_map_to_list. exact Hf.
Qed.

(** C10. If the record stored for the key of a URL has a field whose name is
    exactly the requested four-character year, the query by year returns
    NO_CAPTURES, whatever other fields the record has and whatever page is
    asked for. *)
Theorem YearSimhash_year_marker
    (arch : Arch) (db : gmap string (gmap string string)) (url year : string)
    (page perPage : Z) (h : gmap string string) :
  url <> EmptyString -> String.length year = 4%nat ->
  db !! Surt url = Some h -> is_Some (h !! year) ->
  YearSimhash arch (live db) url year page perPage = Some ([], Some NO_CAPTURES).
Proof.
  intros Hurl Hyear Hkey Hfield.
  destruct (HKeys_live db (Surt url) h year Hkey Hfield) as (timestamps & Hkeys & Hin).
  apply (YearSimhash_marker_any_client _ _ _ _ _ _ timestamps); try assumption.
  intros ->. simpl in Hyear. lia.
Qed.

Lemma YearSimhash_year_marker_witness :
  YearSimhash amd64
    (live {[ Surt "example.com" :=
               {[ "2023"%string := "-1"%string;
                  "20230101000000"%string := "AAA"%string;
                  "20230215030303"%string := "BBB"%string ]} ]})
    "example.com" "2023" 1 10
  = Some ([], Some NO_CAPTURES).
Proof.
  apply (YearSimhash_year_marker amd64 _ "example.com" "2023" 1 10
           {[ "2023"%string := "-1"%string;
              "20230101000000"%string := "AAA"%string;
              "20230215030303"%string := "BBB"%string ]}).
  - discriminate.
  - reflexivity.
  - apply lookup_singleton_eq.
  - rewrite lookup_insert_eq. eexists. reflexivity.
Defined.

(** Without the field named as the year, the same record is served. *)
Example YearSimhash_without_marker :
  YearSimhash amd64
    (live {[ Surt "example.com" :=
               {[ "20230101000000"%string := "AAA"%string;
                  "20230215030303"%string := "BBB"%string ]} ]})
    "example.com" "2023" 1 10
  = Some ([ {| Timestamp := "20230101000000"; Simhash := "AAA" |};
            {| Timestamp := "20230215030303"; Simhash := "BBB" |} ], None).
Proof. vm_compute. reflexivity. Qed.

(** *** The query by timestamp *)

Lemma validateTimestamp_nonempty timestamp :
  validateTimestamp timestamp = true -> timestamp <> EmptyString.
Proof. intros Hvalid ->. discriminate. Qed.

Lemma TimestampSimHash_checked redisClient url timestamp :
  url <> EmptyString -> validateTimestamp timestamp = true ->
  TimestampSimHash redisClient url timestamp =
  let key := Surt url in
  let '(result, err) := HGet redisClient key timestamp in
  match err with
  | Some e => (∅, Some (error_loading url timestamp e))
  | None =>
      if negb (String.length result =? 0)%nat
      then ({[ "simhash"%string := result ]}, None)
      else
        let '(result, err) := HGet redisClient key (substring 0 4 timestamp) in
        match err with
        | Some e => (∅, Some (error_loading url timestamp e))
        | None =>
            if negb (String.length result =? 0)%nat
            then (NO_CAPTURES_status, None)
            else (CAPTURE_NOT_FOUND_status, None)
        end
  end.
Proof.
  intros Hurl Hvalid. unfold TimestampSimHash.
  pose proof (validateTimestamp_nonempty timestamp Hvalid).
  rewrite decide_False; [reflexivity |].
  rewrite Hvalid. intros [? | [? | ?]]; congruence.
Qed.

Lemma length_nonempty (s : string) : s <> EmptyString -> (String.length s =? 0)%nat = false.
Proof. destruct s; [congruence | reflexivity]. Qed.

(** The first part of C6 holds: a stored fingerprint is returned. *)
Lemma TimestampSimHash_present db url timestamp v :
  url <> EmptyString -> validateTimestamp timestamp = true ->
  field db (Surt url) timestamp = Some v -> v <> EmptyString ->
  TimestampSimHash (live db) url timestamp = ({[ "simhash"%string := v ]}, None).
Proof.
  intros Hurl Hvalid Hfield Hv.
  rewrite TimestampSimHash_checked by assumption.
  simpl. rewrite Hfield, (length_nonempty v Hv). reflexivity.
Qed.

(** The fallback is there, for a client that answers an empty string and no
    error: the year is looked up next, and decides between the two statuses. *)
Lemma TimestampSimHash_fallback redisClient url timestamp v :
  url <> EmptyString -> validateTimestamp timestamp = true ->
  HGet redisClient (Surt url) timestamp = (EmptyString, None) ->
  HGet redisClient (Surt url) (substring 0 4 timestamp) = (v, None) ->
  TimestampSimHash redisClient url timestamp =
  (if decide (v = EmptyString) then CAPTURE_NOT_FOUND_status else NO_CAPTURES_status,
   None).
Proof.
  intros Hurl Hvalid Hts Hyear.
  rewrite TimestampSimHash_checked by assumption.
  cbv zeta. rewrite Hts. cbn [String.length Nat.eqb negb]. rewrite Hyear.
  destruct (decide (v = EmptyString)) as [-> | Hv]; [reflexivity |].
  rewrite (length_nonempty v Hv). reflexivity.
Qed.

(** C6, what the code does where the claim fails. For every url that is not
    empty and every timestamp that parses, when the record of the url has no
    field for the exact timestamp, the query by timestamp returns the error
    "error loading simhash data" that wraps redis.Nil: the year prefix is not
    looked up, and neither NO_CAPTURES nor CAPTURE_NOT_FOUND is returned,
    whether a field for the year exists or not. *)
Theorem TimestampSimHash_absent_is_load_error
    (db : gmap string (gmap string string)) (url timestamp : string) :
  url <> EmptyString -> validateTimestamp timestamp = true ->
  field db (Surt url) timestamp = None ->
  TimestampSimHash (live db) url timestamp
  = (∅, Some (error_loading url timestamp redis_Nil)).
Proof.
  intros Hurl Hvalid Hfield.
  rewrite TimestampSimHash_checked by assumption.
  simpl. rewrite Hfield. reflexivity.
Qed.

Lemma TimestampSimHash_absent_is_load_error_witness :
  TimestampSimHash
    (live {[ Surt "example.com" := {[ "2023"%string := "-1"%string ]} ]})
    "example.com" "20230101000000"
  = (∅, Some (error_loading "example.com" "20230101000000" redis_Nil)).
Proof.
  apply TimestampSimHash_absent_is_load_error.
  - discriminate.
  - reflexivity.
  - unfold field. rewrite lookup_singleton_eq. simpl.
    apply lookup_singleton_ne. discriminate.
Defined.

Example TimestampSimHash_no_record :
  TimestampSimHash (live ∅) "example.com" "20230101000000"
  = (∅, Some (error_loading "example.com" "20230101000000" redis_Nil)).
Proof. vm_compute. reflexivity. Qed.

(** *** Pagination *)

Lemma ceiling_quotient a b : 1 <= b -> - ((- a) / b) = (a + b - 1) / b.
Proof. intros Hb. Z.div_mod_to_equations. nia. Qed.

Lemma last_page_bounds len n :
  1 <= n -> (last_page len n - 1) * n < len <= last_page len n * n.
Proof. intros Hn. unfold last_page. Z.div_mod_to_equations. nia. Qed.

Lemma captureResults_stored db key h (page : list string) :
  db !! key = Some h -> Forall (fun ts => is_Some (h !! ts)) page ->
  captureResults page (field db key <$> page) = stored h <$> page.
Proof.
  intros Hkey. induction 1 as [| ts page [v Hv] _ IH]; [reflexivity |].
  cbn [fmap list_fmap captureResults]. unfold field at 1. rewrite Hkey. simpl.
  rewrite Hv. unfold stored at 1. rewrite Hv. simpl. f_equal. exact IH.
Qed.

Lemma handleResults_fetches arch db key h timestamps perPage page fetched :
  db !! key = Some h -> Forall (fun ts => is_Some (h !! ts)) fetched ->
  page_of arch timestamps perPage page = Some fetched ->
  handleResults arch (live db) timestamps key perPage page = Some (stored h <$> fetched).
Proof.
  intros Hkey Hstored Hpage. unfold handleResults. rewrite Hpage. simpl.
  destruct fetched as [| ts fetched]; [reflexivity |].
  f_equal. apply (captureResults_stored db key h (ts :: fetched) Hkey Hstored).
Qed.

Lemma page_of_page arch (timestamps : list string) perPage page :
  Z.of_nat (length timestamps) < 2 ^ 53 -> perPage <= int_max ->
  1 <= page -> 1 <= perPage ->
  page_of arch timestamps perPage page
  = Some (nth_page timestamps
            (Z.min page (last_page (Z.of_nat (length timestamps)) perPage)) perPage).
Proof.
  intros Hlen Hmax Hpage HperPage. unfold page_of, total_pages, nth_page, slice.
  destruct (Z.eqb_spec page (-1)) as [? | _]; [lia |].
  destruct (Z.eqb_spec perPage 0) as [? | _]; [lia |].
  rewrite ceiling_quotient by lia. fold (last_page (Z.of_nat (length timestamps)) perPage).
  pose proof (last_page_bounds (Z.of_nat (length timestamps)) perPage HperPage) as Hlast.
  remember (Z.of_nat (length timestamps)) as len eqn:Hlen_eq.
  remember (last_page len perPage) as last eqn:Hlast_eq.
  destruct (Z.ltb_spec 0 last) as [Hpos | Hnone].
  - remember (Z.min page last) as p eqn:Hp_eq.
    assert (1 <= p <= last) as Hp by lia.
    assert (0 <= (p - 1) * perPage <= (last - 1) * perPage) as Hstart
      by (split; [apply Z.mul_nonneg_nonneg | apply Z.mul_le_mono_nonneg_r]; lia).
    assert ((p - 1) * perPage + perPage = p * perPage) as Hnext by lia.
    assert (p * perPage <= int_max) as Hend.
    { destruct (Z.le_gt_cases len perPage) as [Hbig | Hsmall].
      - assert (last = 1) as Hone by nia. assert (p = 1) as -> by lia. lia.
      - unfold int_max. lia. }
    rewrite !wrap_small by (unfold int_min, int_max in *; lia).
    destruct (Z.leb_spec 0 ((p - 1) * perPage)); [| lia].
    destruct (Z.leb_spec ((p - 1) * perPage) (Z.min (p * perPage) len)); [| lia].
    destruct (Z.leb_spec (Z.min (p * perPage) len) len); [| lia].
    simpl. f_equal.
    destruct (Z.le_gt_cases (p * perPage) len) as [Hfull | Hshort].
    + replace (Z.min (p * perPage) len - (p - 1) * perPage) with perPage by lia.
      reflexivity.
    + rewrite !take_ge; [reflexivity | |]; rewrite length_drop; lia.
  - assert (len = 0) as Hzero by lia.
    assert (timestamps = []) as -> by (apply length_zero_iff_nil; lia).
    rewrite drop_nil, take_nil. reflexivity.
Qed.

Lemma page_of_all arch (timestamps : list string) perPage page :
  perPage < 0 \/ page = -1 \/ (perPage = 0 /\ int_of_inf arch <= 0) ->
  page_of arch timestamps perPage page = Some timestamps.
Proof.
  intros Hcase. unfold page_of, total_pages.
  destruct (Z.eqb_spec page (-1)); [reflexivity |].
  destruct (Z.eqb_spec perPage 0) as [-> | Hne].
  - destruct (Z.eqb_spec (Z.of_nat (length timestamps)) 0) as [Hzero | Hlen].
    + assert (timestamps = []) as -> by (apply length_zero_iff_nil; lia).
      destruct (0 <? int_of_nan arch); [| reflexivity].
      rewrite !Z.mul_0_r. reflexivity.
    + destruct (Z.ltb_spec 0 (int_of_inf arch)); [lia | reflexivity].
  - assert (perPage < 0) as Hneg by lia.
    assert (0 <= - Z.of_nat (length timestamps) / perPage) as Hq
      by (Z.div_mod_to_equations; nia).
    destruct (Z.ltb_spec 0 (- (- Z.of_nat (length timestamps) / perPage)));
      [lia | reflexivity].
Qed.

Lemma nth_page_stored (h : gmap string string) (timestamps : list string) p n :
  Forall (fun ts => is_Some (h !! ts)) timestamps ->
  Forall (fun ts => is_Some (h !! ts)) (nth_page timestamps p n).
Proof. intros Hall. unfold nth_page. apply Forall_take, Forall_drop, Hall. Qed.

(** C5, as amended. For a list of timestamps that the record stores, shorter
    than 2^53, and a page size that an [int] holds: with page p >= 1 and
    perPage n >= 1,
    [handleResults] returns the results of the p-th group of up to n
    timestamps, where a page beyond the last one counts as the last one; and
    with perPage < 0, or the unset page -1, or perPage = 0 on a platform
    whose conversion of +Inf to [int] is not positive, it returns the
    results of all the timestamps. *)
Theorem handleResults_pagination
    (arch : Arch) (db : gmap string (gmap string string)) (key : string)
    (h : gmap string string) (timestamps : list string) (page perPage : Z) :
  db !! key = Some h ->
  Forall (fun ts => is_Some (h !! ts)) timestamps ->
  Z.of_nat (length timestamps) < 2 ^ 53 -> perPage <= int_max ->
  (1 <= page -> 1 <= perPage ->
   handleResults arch (live db) timestamps key perPage page
   = Some (stored h <$>
           nth_page timestamps
             (Z.min page (last_page (Z.of_nat (length timestamps)) perPage)) perPage))
  /\
  (perPage < 0 \/ page = -1 \/ (perPage = 0 /\ int_of_inf arch <= 0) ->
   handleResults arch (live db) timestamps key perPage page
   = Some (stored h <$> timestamps)).
Proof.
  intros Hkey Hstored Hlen Hmax. split.
  - intros Hpage HperPage.
    apply (handleResults_fetches _ _ _ h); [exact Hkey | |].
    + apply nth_page_stored, Hstored.
    + apply page_of_page; assumption.
  - intros Hcase.
    apply (handleResults_fetches _ _ _ h); [exact Hkey | exact Hstored |].
    apply page_of_all, Hcase.
Qed.

Lemma january_stored : Forall (fun ts => is_Some (january_record !! ts)) january.
Proof.
  unfold january.
  repeat (apply Forall_cons; split; [vm_compute; eexists; reflexivity |]).
  apply Forall_nil_2.
Qed.

Lemma handleResults_pagination_witness :
  handleResults amd64 (live january_db) january (Surt "example.com") 10 3
  = Some (stored january_record <$>
          nth_page january (Z.min 3 (last_page (Z.of_nat (length january)) 10)) 10)
  /\
  handleResults amd64 (live january_db) january (Surt "example.com") 0 3
  = Some (stored january_record <$> january).
Proof.
  split.
  - apply (handleResults_pagination amd64 january_db (Surt "example.com")
             january_record january 3 10).
    + apply lookup_singleton_eq.
    + exact january_stored.
    + reflexivity.
    + discriminate.
    + lia.
    + lia.
  - apply (handleResults_pagination amd64 january_db (Surt "example.com")
             january_record january 3 0).
    + apply lookup_singleton_eq.
    + exact january_stored.
    + reflexivity.
    + discriminate.
    + right. right. split; [reflexivity | discriminate].
Defined.

(** C5, the claim as stated fails for the page size 0 where the platform
    converts +Inf to the largest [int], as arm64 does. The 25 timestamps of
    the record are sorted and stored, and the page size is not positive, so
    the claim has all 25 results returned. But the quotient 25/0 is +Inf, the
    number of pages is the largest [int], which is positive, the slice taken
    is [timestamps[0:0]], and no result is returned. *)
Lemma handleResults_zero_page_size_counterexample :
  january_db !! Surt "example.com" = Some january_record /\
  Forall (fun ts => is_Some (january_record !! ts)) january /\
  length january = 25%nat /\
  0 < int_of_inf arm64 /\
  handleResults arm64 (live january_db) january (Surt "example.com") 0 3 = Some [] /\
  handleResults arm64 (live january_db) january (Surt "example.com") 0 3
  <> Some (stored january_record <$> january).
Proof.
  split; [apply lookup_singleton_eq |].
  split; [exact january_stored |].
  split; [reflexivity |].
  split; [reflexivity |].
  split; [vm_compute; reflexivity | vm_compute; discriminate].
Qed.

(** Twenty-five results, ten to the page: page 3 is the captures 21 to 25,
    and so is page 99. *)
Example handleResults_third_page :
  handleResults amd64 (live january_db) january (Surt "example.com") 10 3
  = Some [{| Timestamp := "20230121000000"; Simhash := "21" |};
          {| Timestamp := "20230122000000"; Simhash := "22" |};
          {| Timestamp := "20230123000000"; Simhash := "23" |};
          {| Timestamp := "20230124000000"; Simhash := "24" |};
          {| Timestamp := "20230125000000"; Simhash := "25" |}].
Proof. vm_compute. reflexivity. Qed.

Example handleResults_page_99 :
  handleResults amd64 (live january_db) january (Surt "example.com") 10 99
  = handleResults amd64 (live january_db) january (Surt "example.com") 10 3.
Proof. vm_compute. reflexivity. Qed.

(** The handler passes -1 for the page size, which serves everything. *)
Example handleResults_unpaged :
  handleResults amd64 (live january_db) january (Surt "example.com") (-1) 3
  = Some (stored january_record <$> january).
Proof. vm_compute. reflexivity. Qed.

(** A page size of zero asks the platform what +Inf is as an [int]: the
    saturating conversion makes it a page count, and the page is empty. *)
Example handleResults_zero_saturating :
  handleResults arm64 (live january_db) january (Surt "example.com") 0 3 = Some [].
Proof. vm_compute. reflexivity. Qed.

(** Pages are counted from 1: page 0 of a positive page size slices from a
    negative index, which panics. *)
Example handleResults_page_zero :
  handleResults amd64 (live january_db) january (Surt "example.com") 10 0 = None.
Proof. vm_compute. reflexivity. Qed.

End queries.

(** ** The capture fetcher *)

Section download.
Import job.

Lemma attempts_requests net turns : forall i sent,
  (length (requests (attempts net turns i sent).2) <= turns)%nat.
Proof.
  induction turns as [| turns IH]; intros i sent; simpl; [lia |].
  destruct (request_ok net).
  - destruct (Do net sent).
    + simpl. lia.
    + specialize (IH (i + 1) (S sent)).
      destruct (attempts net turns (i + 1) (S sent)) as [resp events].
      simpl in *. lia.
  - specialize (IH (i + 1) sent).
    destruct (attempts net turns (i + 1) sent) as [resp events].
    simpl in *. lia.
Qed.

(** No call makes more requests than [MAX_RETRIES], which is two. *)
Lemma DownloadCapture_requests codecs net :
  (length (requests (DownloadCapture codecs net).2) <= 2)%nat.
Proof.
  unfold DownloadCapture.
  pose proof (attempts_requests net (Z.to_nat MAX_RETRIES) 0 0) as Hbound.
  destruct (attempts net (Z.to_nat MAX_RETRIES) 0 0) as [resp events].
  exact Hbound.
Qed.

(** A response to the first request ends the loop, whatever its status. *)
Lemma DownloadCapture_first_response codecs net resp :
  request_ok net = true -> Do net 0%nat = Some resp ->
  DownloadCapture codecs net
  = (decode_response codecs (Some resp),
     [Sleep (exponentialBackoff 0 (Intn2000 net 0)); Request 0]).
Proof.
  intros Hreq Hdo. unfold DownloadCapture. simpl. rewrite Hreq, Hdo. reflexivity.
Qed.

(** C7, what the code does where the claim fails. When the first two
    requests fail in the transport, [DownloadCapture] returns the empty text
    after these two requests, each after its sleep of a backoff with jitter:
    there is one attempt beyond the first, not two, and no third request. *)
Theorem DownloadCapture_gives_up_after_two_requests
    (codecs : job.Codecs) (net : job.Network) :
  request_ok net = true -> Do net 0%nat = None -> Do net 1%nat = None ->
  DownloadCapture codecs net
  = (EmptyString,
     [Sleep (1000000 * 2 ^ 0 + 1000 * Intn2000 net 0); Request 0;
      Sleep (1000000 * 2 ^ 1 + 1000 * Intn2000 net 1); Request 1]).
Proof.
  intros Hreq H0 H1. unfold DownloadCapture. simpl.
  rewrite Hreq, H0, H1. reflexivity.
Qed.

Lemma DownloadCapture_gives_up_after_two_requests_witness :
  DownloadCapture stored third_time_lucky
  = (EmptyString,
     [Sleep (1000000 * 2 ^ 0 + 1000 * Intn2000 third_time_lucky 0); Request 0;
      Sleep (1000000 * 2 ^ 1 + 1000 * Intn2000 third_time_lucky 1); Request 1]).
Proof.
  apply DownloadCapture_gives_up_after_two_requests; reflexivity.
Defined.

(** *** Decompression and the cap on the read *)

Lemma length_string_of_bytes bs : String.length (string_of_bytes bs) = length bs.
Proof.
  unfold string_of_bytes. induction bs as [| b bs IH]; simpl; [reflexivity |].
  f_equal. exact IH.
Qed.

Lemma decode_response_text codecs resp data :
  read_all codecs resp = Some data ->
  Contains (ToLower (Get (Header resp) "Content-Type")) "text" = true ->
  decode_response codecs (Some resp) = string_of_bytes data.
Proof.
  intros Hread Htext. unfold decode_response. rewrite Hread, Htext. reflexivity.
Qed.

(** An uncompressed body is cut at the cap. *)
Lemma read_all_plain codecs resp :
  Contains (Get (Header resp) "Content-Encoding") "gzip" = false ->
  Contains (Get (Header resp) "Content-Encoding") "deflate" = false ->
  read_all codecs resp = Some (take (Z.to_nat MAP_CAPTURE_DOWNLOAD) (Body resp)).
Proof. intros Hgzip Hdeflate. unfold read_all. rewrite Hgzip, Hdeflate. reflexivity. Qed.

(** A compressed body goes to its decompressor whole. *)
Lemma read_all_gzip codecs resp :
  Contains (Get (Header resp) "Content-Encoding") "gzip" = true ->
  read_all codecs resp = gunzip codecs (Body resp).
Proof. intros Hgzip. unfold read_all. rewrite Hgzip. reflexivity. Qed.

Lemma read_all_deflate codecs resp :
  Contains (Get (Header resp) "Content-Encoding") "gzip" = false ->
  Contains (Get (Header resp) "Content-Encoding") "deflate" = true ->
  read_all codecs resp = inflate codecs (Body resp).
Proof. intros Hgzip Hdeflate. unfold read_all. rewrite Hgzip, Hdeflate. reflexivity. Qed.

Lemma decode_response_read codecs resp :
  Contains (ToLower (Get (Header resp) "Content-Type")) "text" = true ->
  decode_response codecs (Some resp)
  = match read_all codecs resp with
    | Some data => string_of_bytes data
    | None => EmptyString
    end.
Proof.
  intros Htext. unfold decode_response.
  destruct (read_all codecs resp); [rewrite Htext |]; reflexivity.
Qed.

(** Where C8 holds: the text of an uncompressed response is made of the
    first 1,000,000 bytes of its body. *)
Lemma DownloadCapture_plain_is_capped codecs net resp :
  request_ok net = true -> Do net 0%nat = Some resp ->
  Contains (Get (Header resp) "Content-Encoding") "gzip" = false ->
  Contains (Get (Header resp) "Content-Encoding") "deflate" = false ->
  Contains (ToLower (Get (Header resp) "Content-Type")) "text" = true ->
  (DownloadCapture codecs net).1
  = string_of_bytes (take (Z.to_nat MAP_CAPTURE_DOWNLOAD) (Body resp)).
Proof.
  intros Hreq Hdo Hgzip Hdeflate Htext.
  rewrite (DownloadCapture_first_response _ _ resp) by assumption. cbn [fst].
  rewrite decode_response_read by exact Htext.
  rewrite read_all_plain by assumption. reflexivity.
Qed.

(** C8, what the code does where the claim fails. For a text response whose
    Content-Encoding names gzip, or else deflate, the text [DownloadCapture]
    returns is what the decompressor makes of the whole body, however long:
    the cap of 1,000,000 bytes is on a reader that the decompressing reader
    replaces. *)
Theorem DownloadCapture_compressed_is_uncapped
    (codecs : job.Codecs) (net : job.Network) (resp : job.Response) :
  request_ok net = true -> Do net 0%nat = Some resp ->
  Contains (Get (Header resp) "Content-Encoding") "gzip" = true \/
  Contains (Get (Header resp) "Content-Encoding") "deflate" = true ->
  Contains (ToLower (Get (Header resp) "Content-Type")) "text" = true ->
  (DownloadCapture codecs net).1
  = match (if Contains (Get (Header resp) "Content-Encoding") "gzip"
           then gunzip codecs (Body resp)
           else inflate codecs (Body resp)) with
    | Some data => string_of_bytes data
    | None => EmptyString
    end.
Proof.
  intros Hreq Hdo Hcompressed Htext.
  rewrite (DownloadCapture_first_response _ _ resp) by assumption. cbn [fst].
  rewrite decode_response_read by exact Htext.
  destruct (Contains (Get (Header resp) "Content-Encoding") "gzip") eqn:Hgzip.
  - rewrite read_all_gzip by exact Hgzip. reflexivity.
  - destruct Hcompressed as [? | Hdeflate]; [discriminate |].
    rewrite read_all_deflate by assumption. reflexivity.
Qed.

Lemma DownloadCapture_compressed_is_uncapped_witness :
  (DownloadCapture stored
     {| request_ok := true;
        Do n := Some (page_response "gzip" [104; 105]);
        Intn2000 i := 0 |}).1
  = match (if Contains (Get (Header (page_response "gzip" [104; 105])) "Content-Encoding")
                "gzip"
           then gunzip stored (Body (page_response "gzip" [104; 105]))
           else inflate stored (Body (page_response "gzip" [104; 105]))) with
    | Some data => string_of_bytes data
    | None => EmptyString
    end.
Proof.
  apply DownloadCapture_compressed_is_uncapped.
  - reflexivity.
  - reflexivity.
  - left. vm_compute. reflexivity.
  - vm_compute. reflexivity.
Defined.

(** A body of 1,000,001 bytes under the stand-in codec: the text returned
    for the compressed response has all of them, the one for the
    uncompressed response has 1,000,000. *)
Example DownloadCapture_over_the_cap :
  let body := replicate (Z.to_nat 1000001) 97 in
  let answers encoding :=
    {| request_ok := true; Do n := Some (page_response encoding body); Intn2000 i := 0 |} in
  Z.of_nat (String.length (DownloadCapture stored (answers "gzip"%string)).1) = 1000001 /\
  Z.of_nat (String.length (DownloadCapture stored (answers EmptyString)).1) = 1000000.
Proof.
  cbv zeta. split.
  - rewrite (DownloadCapture_first_response _ _ (page_response "gzip" _)) by reflexivity.
    cbn [fst].
    erewrite decode_response_text; [| | vm_compute; reflexivity].
    2:{ rewrite read_all_gzip by (vm_compute; reflexivity). reflexivity. }
    rewrite length_string_of_bytes. cbn [Body page_response].
    rewrite length_replicate. lia.
  - rewrite (DownloadCapture_first_response _ _ (page_response EmptyString _)) by reflexivity.
    cbn [fst].
    erewrite decode_response_text; [| | vm_compute; reflexivity].
    2:{ apply read_all_plain; vm_compute; reflexivity. }
    rewrite length_string_of_bytes, length_take. cbn [Body page_response].
    rewrite length_replicate. unfold MAP_CAPTURE_DOWNLOAD. lia.
Qed.

End download.

(** ** The job orchestrator *)

Section orchestrator.
Import job.

Lemma State_set_Info i j : State (set_Info i j) = State j.
Proof. reflexivity. Qed.

Lemma State_set_Duration d j : State (set_Duration d j) = State j.
Proof. reflexivity. Qed.

(** A job whose listing failed ends in ERROR. *)
Lemma goroutine_listing_failed j url year captures err calculations store now :
  State (goroutine j url year (captures, Some err) calculations store now) = "ERROR"%string.
Proof. reflexivity. Qed.

(** A job whose listing succeeded ends in COMPLETE, whatever the store
    answers and whatever the result map holds. *)
Lemma goroutine_complete j url year captures calculations store now :
  State (goroutine j url year (captures, None) calculations store now) = "COMPLETE"%string.
Proof.
  unfold goroutine. simpl.
  destruct (decide _); [| reflexivity].
  destruct (HSet store); [reflexivity |].
  destruct (Expire store); reflexivity.
Qed.

(** C9, what the code does where the claim fails. When the listing succeeded
    and the per-capture work is over, the job is COMPLETE in every case, but
    when the result map is not empty and one of the two writes to the store
    fails, the goroutine returns before it takes the time: [Duration] keeps
    the value it had, and [Info] holds the write error. *)
Theorem goroutine_write_failure_skips_duration
    (j : job.Job) (url year : string) (captures : list string)
    (calculations : list (string * string)) (store : job.Writes) (now : Z)
    (err : utils.error) :
  finalResult calculations <> ∅ ->
  HSet store = Some err \/ (HSet store = None /\ Expire store = Some err) ->
  let j' := goroutine j url year (captures, None) calculations store now in
  State j' = "COMPLETE"%string /\ Duration j' = Duration j /\ Info j' = CannotWrite url err.
Proof.
  intros Hresult Hfail. cbv zeta. unfold goroutine. simpl.
  rewrite decide_True by (intros Hsize; apply Hresult, map_size_empty_iff, Hsize).
  destruct Hfail as [-> | [-> ->]]; repeat split.
Qed.

Lemma goroutine_write_failure_skips_duration_witness :
  let j := RunJob NewJobQueue "example.com" "2023" 1000 "job-1" in
  let j' := goroutine j "example.com" "2023" (["20230101000000 DIGEST"%string], None)
              [("20230101000000"%string, "AAA"%string)]
              {| HSet := Some (utils.redis_error "connection refused"); Expire := None |}
              5000 in
  State j' = "COMPLETE"%string /\ Duration j' = Duration j /\
  Info j' = CannotWrite "example.com" (utils.redis_error "connection refused").
Proof.
  apply goroutine_write_failure_skips_duration.
  - unfold finalResult. simpl. apply insert_non_empty.
  - left. reflexivity.
Defined.

(** Where the claim holds: without a failed write, the time is taken. *)
Lemma goroutine_records_duration j url year captures calculations store now :
  finalResult calculations = ∅ \/ (HSet store = None /\ Expire store = None) ->
  let j' := goroutine j url year (captures, None) calculations store now in
  State j' = "COMPLETE"%string /\ Duration j' = now - startTime j.
Proof.
  intros Hok. cbv zeta. unfold goroutine. simpl.
  destruct (decide _) as [Hsize | _]; [| split; reflexivity].
  destruct Hok as [Hempty | [-> ->]]; [| split; reflexivity].
  rewrite Hempty in Hsize. exfalso. apply Hsize. apply map_size_empty.
Qed.

Example goroutine_duration_example :
  let j := RunJob NewJobQueue "example.com" "2023" 1000 "job-1" in
  Duration (goroutine j "example.com" "2023" (["20230101000000 DIGEST"%string], None)
              [("20230101000000"%string, "AAA"%string)]
              {| HSet := None; Expire := None |} 5000) = 4000 /\
  Duration (goroutine j "example.com" "2023" (["20230101000000 DIGEST"%string], None)
              [("20230101000000"%string, "AAA"%string)]
              {| HSet := Some (utils.redis_error "connection refused"); Expire := None |}
              5000) = 0.
Proof. split; reflexivity. Qed.

End orchestrator.

(** ** More on the fingerprint encoder *)

Section fingerprint_more.
Import simhash.

Lemma generateSimhash_Some_size features size value :
  generateSimhash features size = Some value -> 0 <= size.
Proof.
  unfold generateSimhash. destruct (Z.ltb_spec size 0); [discriminate | lia].
Qed.

Lemma mask_ones size : mask size = Z.ones size.
Proof. reflexivity. Qed.

Lemma testbit_reduced h size i :
  0 <= size -> 0 <= i ->
  Z.testbit (Z.land h (mask size)) i = Z.testbit h i && bool_decide (i < size).
Proof.
  intros Hsize Hi. rewrite Z.land_spec, mask_ones. f_equal.
  destruct (decide (i < size)).
  - rewrite Z.ones_spec_low by lia. rewrite bool_decide_eq_true_2 by lia. reflexivity.
  - rewrite Z.ones_spec_high by lia. rewrite bool_decide_eq_false_2 by lia. reflexivity.
Qed.

(** X1. A fingerprint has no bit at or above its size: whenever
    [generateSimhash] returns, the value is in [0, 2^size). *)
Theorem generateSimhash_below_size
    (features : list (string * Z)) (size value : Z) :
  generateSimhash features size = Some value -> 0 <= value < 2 ^ size.
Proof.
  intros Hgen. apply (generateSimhash_bound features); [| exact Hgen].
  exact (generateSimhash_Some_size _ _ _ Hgen).
Qed.

Lemma generateSimhash_below_size_witness : 0 <= 47202 < 2 ^ 16.
Proof.
  apply (generateSimhash_below_size [("a"%string, 3); ("b"%string, 5)]).
  vm_compute. reflexivity.
Defined.

(** X2. The fingerprint of a single term of positive weight is the hash of
    the term reduced to [size] bits, whatever the weight. *)
Theorem generateSimhash_single_term (k : string) (v size : Z) :
  0 <= size -> 0 < v <= int_max ->
  generateSimhash [(k, v)] size = Some (hashFunc k mod 2 ^ size).
Proof.
  intros Hsize Hv.
  destruct (generateSimhash_bits [(k, v)] size Hsize) as (value & Hgen & Hpos & Hbits).
  rewrite Hgen. f_equal. apply Z.bits_inj'. intros i Hi.
  rewrite Hbits by exact Hi.
  rewrite <- Z.land_ones, <- mask_ones by exact Hsize.
  rewrite testbit_reduced by assumption.
  unfold accumulator. simpl. unfold contribution. simpl.
  destruct (Z.ltb_spec 0 v); [| lia].
  rewrite testbit_reduced by assumption.
  rewrite Z.add_0_r.
  destruct (bool_decide (i < size)); [| rewrite andb_false_r; reflexivity].
  rewrite !andb_true_r. simpl.
  destruct (Z.testbit (hashFunc k) i);
    rewrite wrap_small by (unfold int_min, int_max in *; lia).
  - apply Z.ltb_lt. lia.
  - apply Z.ltb_ge. lia.
Qed.

Lemma generateSimhash_single_term_witness :
  generateSimhash [("a"%string, 7)] 8 = Some (hashFunc "a" mod 2 ^ 8).
Proof.
  apply generateSimhash_single_term.
  - lia.
  - split; [lia | vm_compute; discriminate].
Defined.

Lemma accumulator_nonpositive features size i :
  Forall (fun kv => kv.2 <= 0) features -> accumulator features size i = 0.
Proof.
  induction 1 as [| kv features Hkv _ IH]; [reflexivity |].
  rewrite accumulator_cons, IH. unfold contribution.
  destruct (Z.ltb_spec 0 kv.2); lia.
Qed.

(** X3. A feature set without a positive weight, the empty one among them,
    has the fingerprint 0. *)
Theorem generateSimhash_no_positive_weight (features : list (string * Z)) (size : Z) :
  0 <= size -> Forall (fun kv => kv.2 <= 0) features ->
  generateSimhash features size = Some 0.
Proof.
  intros Hsize Hall.
  destruct (generateSimhash_bits features size Hsize) as (value & Hgen & _ & Hbits).
  rewrite Hgen. f_equal. apply Z.bits_inj'. intros i Hi.
  rewrite Hbits by exact Hi. rewrite accumulator_nonpositive by exact Hall.
  rewrite Z.bits_0. apply andb_false_r.
Qed.

Lemma generateSimhash_no_positive_weight_witness :
  generateSimhash [("a"%string, 0); ("b"%string, -4)] 256 = Some 0.
Proof.
  apply generateSimhash_no_positive_weight.
  - lia.
  - repeat constructor; simpl; lia.
Defined.

(** X4. [GetSimhash] panics, for a size that is not negative, exactly when
    the value does not fit the size/8 bytes of the buffer; this needs a size
    that is no multiple of 8. *)
Theorem GetSimhash_panics_iff (features : list (string * Z)) (size value : Z) :
  generateSimhash features size = Some value ->
  (GetSimhash features size = None <-> 256 ^ (size / 8) <= value) /\
  (size mod 8 = 0 -> GetSimhash features size <> None).
Proof.
  intros Hgen.
  pose proof (generateSimhash_Some_size _ _ _ Hgen) as Hsize.
  pose proof (generateSimhash_bound _ _ _ Hsize Hgen) as Hbound.
  assert (0 <= size / 8) as Hdiv by (apply Z.div_pos; lia).
  assert (GetSimhash features size = None <-> 256 ^ (size / 8) <= value) as Hiff.
  { unfold GetSimhash, encodeSimhashToBase64, packSimhashToBytes, FillBytes.
    rewrite Hgen. simpl. rewrite Z.quot_div_nonneg by lia.
    destruct (Z.ltb_spec (size / 8) 0); [lia |].
    rewrite Z.abs_eq, Z2Nat.id by lia.
    destruct (Z.ltb_spec value (256 ^ (size / 8))); simpl.
    - split; [discriminate | lia].
    - split; [lia | reflexivity]. }
  split; [exact Hiff |].
  intros Hmod Hnone. apply Hiff in Hnone.
  assert (2 ^ size = 256 ^ (size / 8)) as Hpow.
  { change 256 with (2 ^ 8). rewrite <- Z.pow_mul_r by lia.
    f_equal. apply Z.div_exact in Hmod; lia. }
  lia.
Qed.

Lemma GetSimhash_panics_iff_witness :
  (GetSimhash [("a"%string, 7)] 12 = None <-> 256 ^ (12 / 8) <= 2876) /\
  (12 mod 8 = 0 -> GetSimhash [("a"%string, 7)] 12 <> None).
Proof.
  apply GetSimhash_panics_iff. vm_compute. reflexivity.
Defined.

End fingerprint_more.

Section fingerprint_encoding.
Import simhash.

Lemma accumulator_scaled c features size i :
  0 < c ->
  accumulator ((fun kv => (kv.1, c * kv.2)) <$> features) size i
  = c * accumulator features size i.
Proof.
  intros Hc. induction features as [| kv features IH]; [unfold accumulator; simpl; lia |].
  rewrite fmap_cons, !accumulator_cons, IH. unfold contribution. simpl.
  destruct (Z.ltb_spec 0 kv.2) as [Hpos | Hneg].
  - destruct (Z.ltb_spec 0 (c * kv.2)) as [_ | Hbad]; [| nia].
    destruct (Z.testbit _ _); lia.
  - destruct (Z.ltb_spec 0 (c * kv.2)) as [Hbad | _]; [nia | lia].
Qed.

Lemma positive_weight_scaled c features :
  0 < c ->
  positive_weight ((fun kv => (kv.1, c * kv.2)) <$> features)
  = c * positive_weight features.
Proof.
  intros Hc. induction features as [| kv features IH]; [unfold positive_weight; simpl; lia |].
  rewrite fmap_cons, !positive_weight_cons, IH. simpl. nia.
Qed.

Lemma positive_weight_nonneg features : 0 <= positive_weight features.
Proof.
  induction features as [| kv features IH]; [unfold positive_weight; simpl; lia |].
  rewrite positive_weight_cons. lia.
Qed.

(** X5. Only the proportions of the weights matter: multiplying every weight
    by the same positive factor leaves the fingerprint as it is, as long as
    the scaled positive weights still sum to at most [int_max]. *)
Theorem generateSimhash_scale_invariant (features : list (string * Z)) (c size : Z) :
  0 < c -> c * positive_weight features <= int_max ->
  generateSimhash ((fun kv => (kv.1, c * kv.2)) <$> features) size
  = generateSimhash features size.
Proof.
  intros Hc Hweight.
  destruct (Z.lt_ge_cases size 0) as [Hneg | Hsize].
  { unfold generateSimhash. destruct (Z.ltb_spec size 0); [reflexivity | lia]. }
  destruct (generateSimhash_bits features size Hsize) as (v1 & -> & _ & Hbits1).
  destruct (generateSimhash_bits ((fun kv => (kv.1, c * kv.2)) <$> features) size Hsize)
    as (v2 & -> & _ & Hbits2).
  f_equal. apply Z.bits_inj'. intros i Hi.
  rewrite Hbits1, Hbits2 by exact Hi. f_equal.
  rewrite accumulator_scaled by exact Hc.
  pose proof (accumulator_bound features size i) as Hacc.
  pose proof (positive_weight_nonneg features) as Hnonneg.
  assert (positive_weight features <= int_max) as Hsmall by nia.
  assert (- (c * positive_weight features) <= c * accumulator features size i
          <= c * positive_weight features) as Hscaled by nia.
  rewrite !wrap_small by (unfold int_min, int_max in *; lia).
  destruct (Z.ltb_spec 0 (accumulator features size i));
    destruct (Z.ltb_spec 0 (c * accumulator features size i)); try reflexivity; nia.
Qed.

Lemma generateSimhash_scale_invariant_witness :
  generateSimhash ((fun kv => (kv.1, 1000 * kv.2)) <$> [("a"%string, 3); ("b"%string, 5)]) 16
  = generateSimhash [("a"%string, 3); ("b"%string, 5)] 16.
Proof.
  apply generateSimhash_scale_invariant.
  - lia.
  - vm_compute. discriminate.
Defined.

Lemma be_bytes_lookup n : forall x j,
  (j < n)%nat ->
  be_bytes n x !! j = Some ((x / 256 ^ Z.of_nat (n - 1 - j)) mod 256).
Proof.
  induction n as [| n IH]; intros x j Hj; [lia |].
  cbn [be_bytes]. destruct (decide (j = n)) as [-> | Hne].
  - rewrite lookup_app_r by (rewrite length_be_bytes; lia).
    rewrite length_be_bytes, Nat.sub_diag.
    replace (S n - 1 - n)%nat with 0%nat by lia.
    change (256 ^ Z.of_nat 0) with 1. rewrite Z.div_1_r. reflexivity.
  - rewrite lookup_app_l by (rewrite length_be_bytes; lia).
    rewrite IH by lia. f_equal.
    rewrite Z.div_div by (try apply Z.pow_pos_nonneg; lia).
    rewrite <- Z.pow_succ_r by lia. do 3 f_equal. lia.
Qed.

Lemma packSimhashToBytes_unfold value size bytes :
  0 <= value -> packSimhashToBytes value size = Some bytes ->
  0 <= Z.quot size 8 /\ bytes = reverse (be_bytes (Z.to_nat (Z.quot size 8)) value).
Proof.
  intros Hvalue. unfold packSimhashToBytes, FillBytes.
  destruct (Z.ltb_spec (Z.quot size 8) 0) as [| Hquot]; [discriminate |].
  rewrite Z.abs_eq by exact Hvalue.
  destruct (value <? _); [| discriminate].
  simpl. rewrite to_little_endian_reverse. intros [= <-]. split; [lia | reflexivity].
Qed.

Lemma packSimhashToBytes_fits_length value size bytes :
  0 <= value -> packSimhashToBytes value size = Some bytes ->
  Z.of_nat (length bytes) = Z.quot size 8.
Proof.
  intros Hvalue Hpack.
  destruct (packSimhashToBytes_unfold _ _ _ Hvalue Hpack) as [Hquot ->].
  rewrite length_reverse, length_be_bytes. lia.
Qed.

(** X6. [packSimhashToBytes] returns the size/8 low-order bytes of the value
    with the least significant first: byte [k] is [value / 256^k mod 256]. *)
Theorem packSimhashToBytes_little_endian (value size : Z) (bytes : list Z) :
  0 <= value -> packSimhashToBytes value size = Some bytes ->
  Z.of_nat (length bytes) = Z.quot size 8 /\
  forall k, (k < length bytes)%nat ->
    bytes !! k = Some ((value / 256 ^ Z.of_nat k) mod 256).
Proof.
  intros Hvalue Hpack.
  destruct (packSimhashToBytes_unfold _ _ _ Hvalue Hpack) as [Hquot ->].
  rewrite length_reverse, length_be_bytes. split; [lia |].
  intros k Hk. rewrite reverse_lookup by (rewrite length_be_bytes; exact Hk).
  rewrite length_be_bytes, be_bytes_lookup by lia.
  do 4 f_equal. lia.
Qed.

Lemma packSimhashToBytes_little_endian_witness :
  Z.of_nat (length [98; 184]) = Z.quot 16 8 /\
  forall k, (k < length [98; 184])%nat ->
    [98; 184] !! k = Some ((47202 / 256 ^ Z.of_nat k) mod 256).
Proof.
  apply (packSimhashToBytes_little_endian 47202 16 [98; 184]).
  - lia.
  - vm_compute. reflexivity.
Defined.

Lemma EncodeToString_length_upto n : forall src,
  (length src <= n)%nat ->
  Z.of_nat (String.length (base64.EncodeToString src))
  = 4 * ((Z.of_nat (length src) + 2) / 3).
Proof.
  induction n as [| n IH]; intros src Hlen.
  - destruct src; [reflexivity | simpl in Hlen; lia].
  - destruct src as [| b0 [| b1 [| b2 rest]]]; try reflexivity.
    cbn [base64.EncodeToString String.length length].
    rewrite !Nat2Z.inj_succ, IH by (simpl in Hlen; lia).
    Z.div_mod_to_equations. lia.
Qed.

(** X7. The text [GetSimhash] returns is padded base64: its length is four
    characters for every three bytes of the size/8, rounded up (44
    characters for the size 256). *)
Theorem GetSimhash_length (features : list (string * Z)) (size : Z) (text : string) :
  GetSimhash features size = Some text ->
  Z.of_nat (String.length text) = 4 * ((size / 8 + 2) / 3).
Proof.
  unfold GetSimhash, encodeSimhashToBase64. intros Hget.
  destruct (generateSimhash features size) as [value |] eqn:Hgen; [| discriminate].
  pose proof (generateSimhash_Some_size _ _ _ Hgen) as Hsize.
  pose proof (generateSimhash_bits features size Hsize) as (v & Hv & Hpos & _).
  assert (v = value) as -> by congruence.
  simpl in Hget.
  destruct (packSimhashToBytes value size) as [bytes |] eqn:Hpack; [| discriminate].
  injection Hget as <-.
  pose proof (packSimhashToBytes_fits_length value size bytes Hpos Hpack) as Hlen.
  rewrite (EncodeToString_length_upto (length bytes)) by reflexivity.
  rewrite Hlen, Z.quot_div_nonneg by lia. reflexivity.
Qed.

Lemma GetSimhash_length_witness :
  Z.of_nat (String.length "Yrg=") = 4 * ((16 / 8 + 2) / 3).
Proof.
  apply (GetSimhash_length [("a"%string, 3); ("b"%string, 5)]).
  vm_compute. reflexivity.
Defined.

End fingerprint_encoding.

(** ** More on the word counts *)

Section word_counts_more.
Import job simhash.

Lemma occurrences_elem word words : word ∈ words -> 1 <= occurrences word words.
Proof.
  induction words as [| w words IH]; intros Hin; [set_solver |].
  rewrite occurrences_cons. unfold occurrences in *.
  destruct (decide (word = w)); [lia |].
  apply elem_of_cons in Hin as [? | Hin]; [congruence |]. specialize (IH Hin). lia.
Qed.

Lemma wordCounts_lookup_occurrences words w :
  wordCounts words !! w
  = if decide (w ∈ words) then Some (occurrences w words) else None.
Proof.
  unfold wordCounts, sort_Strings.
  rewrite (count_runs_lookup (length (merge_sort String.le words)))
    by (try reflexivity; apply StronglySorted_merge_sort; apply _).
  pose proof (merge_sort_Permutation String.le words) as Hperm.
  rewrite (occurrences_perm w _ _ Hperm), lookup_empty.
  destruct (decide (w ∈ words)) as [Hin | Hnot].
  - rewrite decide_True by (rewrite Hperm; exact Hin). reflexivity.
  - rewrite decide_False by (rewrite Hperm; exact Hnot). reflexivity.
Qed.

(** X8. The weight map of a list of tokens has exactly the tokens as its
    keys, each with the number of its occurrences, which is at least 1: no
    feature has the weight 0 that [generateSimhash] would skip. *)
Theorem wordCounts_weights (words : list string) (w : string) :
  (w ∈ words <-> is_Some (wordCounts words !! w)) /\
  (forall n, wordCounts words !! w = Some n -> n = occurrences w words /\ 1 <= n).
Proof.
  rewrite wordCounts_lookup_occurrences. split.
  - destruct (decide (w ∈ words)) as [Hin | Hnot].
    + split; [intros _; eexists; reflexivity | intros _; exact Hin].
    + split; [intros H; contradiction | intros [? H]; discriminate].
  - intros n Hn. destruct (decide (w ∈ words)) as [Hin | Hnot]; [| discriminate].
    injection Hn as <-. split; [reflexivity | apply occurrences_elem, Hin].
Qed.

Lemma positive_weight_insert_fresh (m : gmap string Z) w v :
  m !! w = None ->
  positive_weight (map_to_list (<[w := v]> m))
  = Z.max 0 v + positive_weight (map_to_list m).
Proof.
  intros Hfresh. rewrite (positive_weight_perm _ _ (map_to_list_insert m w v Hfresh)).
  apply positive_weight_cons.
Qed.

Lemma positive_weight_increment (m : gmap string Z) w :
  (forall k v, m !! k = Some v -> 0 <= v) ->
  positive_weight (map_to_list (<[w := default 0 (m !! w) + 1]> m))
  = positive_weight (map_to_list m) + 1.
Proof.
  intros Hnonneg. destruct (m !! w) as [c |] eqn:Hw; simpl.
  - pose proof (Hnonneg w c Hw) as Hc.
    rewrite <- (insert_delete_eq m w (c + 1)).
    rewrite positive_weight_insert_fresh by apply lookup_delete_eq.
    rewrite <- (positive_weight_perm _ _ (map_to_list_delete m w c Hw)).
    rewrite positive_weight_cons. simpl. lia.
  - rewrite positive_weight_insert_fresh by exact Hw. lia.
Qed.

Lemma count_directly_weight words : forall (counts : gmap string Z),
  (forall k v, counts !! k = Some v -> 0 <= v) ->
  positive_weight
    (map_to_list
       (foldl (fun counts word => <[word := default 0 (counts !! word) + 1]> counts)
              counts words))
  = positive_weight (map_to_list counts) + Z.of_nat (length words).
Proof.
  induction words as [| word words IH]; intros counts Hnonneg; cbn [foldl length].
  - lia.
  - rewrite IH; [rewrite positive_weight_increment by exact Hnonneg; lia |].
    intros k v. destruct (decide (k = word)) as [-> | Hne].
    + rewrite lookup_insert_eq. intros [= <-].
      destruct (counts !! word) as [c |] eqn:Hc; simpl; [| lia].
      specialize (Hnonneg word c Hc). lia.
    + rewrite lookup_insert_ne by congruence. apply Hnonneg.
Qed.

Lemma wordCounts_count_directly words : wordCounts words = count_directly words.
Proof.
  apply map_eq. intros k. rewrite wordCounts_lookup_occurrences.
  unfold count_directly. rewrite count_directly_lookup, lookup_empty. simpl.
  destruct (decide (k ∈ words)); [f_equal; lia | reflexivity].
Qed.

Lemma wordCounts_positive_weight words :
  positive_weight (map_to_list (wordCounts words)) = Z.of_nat (length words).
Proof.
  rewrite wordCounts_count_directly.
  unfold count_directly. rewrite count_directly_weight.
  - rewrite map_to_list_empty. unfold positive_weight. simpl. lia.
  - intros k v. rewrite lookup_empty. discriminate.
Qed.

(** X9. The weights of the features of a list of tokens sum to the number
    of tokens; so for fewer than 2^63 tokens the sum of the positive weights
    is within the range of an [int], where no accumulator of
    [generateSimhash] wraps around. *)
Theorem wordCounts_total_weight (words : list string) :
  positive_weight (map_to_list (wordCounts words)) = Z.of_nat (length words).
Proof. apply wordCounts_positive_weight. Qed.

(** *** The fingerprint of a list of tokens *)

Lemma accumulator_insert_fresh (m : gmap string Z) w v size i :
  m !! w = None ->
  accumulator (map_to_list (<[w := v]> m)) size i
  = contribution size i (w, v) + accumulator (map_to_list m) size i.
Proof.
  intros Hfresh. rewrite (accumulator_perm _ _ _ _ (map_to_list_insert m w v Hfresh)).
  apply accumulator_cons.
Qed.

Lemma accumulator_increment (m : gmap string Z) w size i :
  (forall k v, m !! k = Some v -> 0 <= v) ->
  accumulator (map_to_list (<[w := default 0 (m !! w) + 1]> m)) size i
  = accumulator (map_to_list m) size i + ballot size i w.
Proof.
  intros Hnonneg. unfold ballot. destruct (m !! w) as [c |] eqn:Hw; simpl.
  - pose proof (Hnonneg w c Hw) as Hc.
    rewrite <- (insert_delete_eq m w (c + 1)).
    rewrite accumulator_insert_fresh by apply lookup_delete_eq.
    rewrite <- (accumulator_perm _ _ _ _ (map_to_list_delete m w c Hw)).
    rewrite accumulator_cons. unfold contribution. cbn [fst snd].
    destruct (Z.ltb_spec 0 (c + 1)); [| lia].
    destruct (Z.ltb_spec 0 c); destruct (Z.testbit _ _); lia.
  - rewrite accumulator_insert_fresh by exact Hw.
    unfold contribution. cbn [fst snd]. destruct (Z.testbit _ _); simpl; lia.
Qed.

Lemma count_directly_accumulator words size i : forall (counts : gmap string Z),
  (forall k v, counts !! k = Some v -> 0 <= v) ->
  accumulator
    (map_to_list
       (foldl (fun counts word => <[word := default 0 (counts !! word) + 1]> counts)
              counts words)) size i
  = accumulator (map_to_list counts) size i + tally size i words.
Proof.
  induction words as [| word words IH]; intros counts Hnonneg; cbn [foldl].
  - unfold tally. simpl. lia.
  - rewrite IH; [rewrite accumulator_increment by exact Hnonneg;
                 unfold tally; rewrite fmap_cons; cbn [foldr]; lia |].
    intros k v. destruct (decide (k = word)) as [-> | Hne].
    + rewrite lookup_insert_eq. intros [= <-].
      destruct (counts !! word) as [c |] eqn:Hc; simpl; [| lia].
      specialize (Hnonneg word c Hc). lia.
    + rewrite lookup_insert_ne by congruence. apply Hnonneg.
Qed.

Lemma tally_bound size i words :
  - Z.of_nat (length words) <= tally size i words <= Z.of_nat (length words).
Proof.
  unfold tally. induction words as [| w words IH]; [simpl; lia |].
  rewrite fmap_cons. cbn [foldr length]. unfold ballot at 1 3.
  destruct (Z.testbit _ _); lia.
Qed.

Lemma tally_counts size i words :
  0 <= i < size ->
  tally size i words
  = Z.of_nat (length (filter (fun w => Z.testbit (hashFunc w) i = true) words))
    - Z.of_nat (length (filter (fun w => Z.testbit (hashFunc w) i = false) words)).
Proof.
  intros Hi. unfold tally. induction words as [| w words IH]; [reflexivity |].
  rewrite fmap_cons. cbn [foldr]. rewrite IH, !filter_cons.
  unfold ballot. rewrite testbit_reduced by lia.
  rewrite bool_decide_eq_true_2, andb_true_r by lia.
  destruct (Z.testbit (hashFunc w) i) eqn:Hbit.
  - rewrite decide_True by reflexivity. rewrite decide_False by discriminate.
    cbn [length]. lia.
  - rewrite decide_False by discriminate. rewrite decide_True by reflexivity.
    cbn [length]. lia.
Qed.

(** X25. The fingerprint of a text is a majority vote of its tokens. For
    the features that the counting loop of [extractHTMLFeatures] makes of
    fewer than 2^63 tokens, in whichever order the map is visited, bit [i] of
    the fingerprint is 1 exactly when the tokens whose hash has bit [i] set,
    each counted as often as it occurs, outnumber the others. *)
Theorem fingerprint_is_majority_of_tokens
    (words : list string) (order : list (string * Z)) (size i : Z) :
  range_order (wordCounts words) order ->
  0 <= i < size ->
  Z.of_nat (length words) <= int_max ->
  exists value,
    generateSimhash order size = Some value /\
    (Z.testbit value i = true <->
     (length (filter (fun w => Z.testbit (hashFunc w) i = false) words)
      < length (filter (fun w => Z.testbit (hashFunc w) i = true) words))%nat).
Proof.
  intros Horder Hi Hwords.
  destruct (generateSimhash_bits order size ltac:(lia)) as (value & Hgen & _ & Hbits).
  exists value. split; [exact Hgen |].
  rewrite Hbits by lia. rewrite bool_decide_eq_true_2 by lia. cbn [andb].
  rewrite (accumulator_perm _ _ size i Horder).
  rewrite wordCounts_count_directly. unfold count_directly.
  rewrite count_directly_accumulator
    by (intros k v; rewrite lookup_empty; discriminate).
  rewrite map_to_list_empty. change (accumulator [] size i) with 0.
  pose proof (tally_bound size i words) as Hbound.
  rewrite wrap_small by (unfold int_min, int_max in *; lia).
  rewrite Z.ltb_lt, (tally_counts size i words Hi). lia.
Qed.

Lemma fingerprint_is_majority_of_tokens_witness :
  let words := ["b"; "a"; "b"]%string in
  exists value,
    generateSimhash [("a"%string, 1); ("b"%string, 2)] 16 = Some value /\
    (Z.testbit value 3 = true <->
     (length (filter (fun w => Z.testbit (hashFunc w) 3 = false) words)
      < length (filter (fun w => Z.testbit (hashFunc w) 3 = true) words))%nat).
Proof.
  apply (fingerprint_is_majority_of_tokens ["b"; "a"; "b"]%string).
  - unfold range_order. vm_compute. reflexivity.
  - lia.
  - vm_compute. discriminate.
Defined.

End word_counts_more.

(** ** More on the keys of the store *)

Section surt.
Import utils.

Lemma chars_append s1 s2 :
  list_ascii_of_string (s1 ++ s2) = list_ascii_of_string s1 ++ list_ascii_of_string s2.
Proof. induction s1 as [| c s1 IH]; simpl; [reflexivity | f_equal; exact IH]. Qed.

Lemma Split_nonempty s sep : Split s sep <> [].
Proof.
  destruct s as [| c s]; simpl; [discriminate |].
  destruct (Ascii.eqb c sep); [discriminate |].
  destruct (Split s sep); discriminate.
Qed.

(** No part that [Split] cuts holds the separator. *)
Lemma Split_parts s sep : Forall (fun part => sep ∉ list_ascii_of_string part) (Split s sep).
Proof.
  induction s as [| c s IH]; simpl.
  - constructor; [apply not_elem_of_nil | constructor].
  - destruct (Ascii.eqb_spec c sep) as [-> | Hne].
    + constructor; [apply not_elem_of_nil | exact IH].
    + destruct (Split s sep) as [| part parts]; simpl.
      * constructor; [| constructor]. simpl.
        apply not_elem_of_cons. split; [congruence | apply not_elem_of_nil].
      * apply Forall_cons in IH as [Hpart Hparts].
        constructor; [| exact Hparts]. simpl.
        apply not_elem_of_cons. split; [congruence | exact Hpart].
Qed.

Lemma Split_without_sep s sep :
  sep ∉ list_ascii_of_string s -> Split s sep = [s].
Proof.
  induction s as [| c s IH]; simpl; intros Hnot; [reflexivity |].
  apply not_elem_of_cons in Hnot as [Hne Hnot].
  destruct (Ascii.eqb_spec c sep) as [-> | _]; [congruence |].
  rewrite IH by exact Hnot. reflexivity.
Qed.

Lemma Join_chars c parts sep :
  c ∉ list_ascii_of_string sep ->
  Forall (fun part => c ∉ list_ascii_of_string part) parts ->
  c ∉ list_ascii_of_string (Join parts sep).
Proof.
  intros Hsep. induction 1 as [| part parts Hpart Hparts IH]; [apply not_elem_of_nil |].
  destruct parts as [| part' parts]; [exact Hpart |].
  change (Join (part :: part' :: parts) sep)
    with (part ++ sep ++ Join (part' :: parts) sep)%string.
  rewrite !chars_append, !elem_of_app. tauto.
Qed.

(** X10. The key depends on the dot-separated parts of the URL only as a
    multiset: two URLs with the same parts in any order have the same key,
    and so share one record of the store. *)
Theorem Surt_of_permuted_parts (url1 url2 : string) :
  Split url1 "." ≡ₚ Split url2 "." -> Surt url1 = Surt url2.
Proof.
  intros Hperm. unfold Surt, sort_Strings. f_equal.
  apply (StronglySorted_unique String.le).
  - apply StronglySorted_merge_sort; apply _.
  - apply StronglySorted_merge_sort; apply _.
  - rewrite !merge_sort_Permutation. exact Hperm.
Qed.

Lemma Surt_of_permuted_parts_witness :
  Surt "b.a.example.com" = Surt "example.com.a.b".
Proof.
  apply Surt_of_permuted_parts.
  change (["b"; "a"; "example"; "com"] ≡ₚ ["example"; "com"; "a"; "b"])%string.
  etransitivity; [apply perm_swap |].
  apply (Permutation_app_comm ["a"; "b"]%string ["example"; "com"]%string).
Defined.

(** X11. A key holds no dot, and the key of a key is the key itself. *)
Theorem Surt_idempotent (url : string) :
  ("."%char ∉ list_ascii_of_string (Surt url)) /\ Surt (Surt url) = Surt url.
Proof.
  assert ("."%char ∉ list_ascii_of_string (Surt url)) as Hdot.
  { unfold Surt, sort_Strings. apply Join_chars.
    - apply not_elem_of_cons. split; [discriminate | apply not_elem_of_nil].
    - rewrite merge_sort_Permutation. apply Split_parts. }
  split; [exact Hdot |].
  unfold Surt at 1. rewrite Split_without_sep by exact Hdot. reflexivity.
Qed.

End surt.

(** ** More on the query by year *)

Section year_query.
Import utils.

Lemma StronglySorted_filter {A} (R : relation A) (P : A -> Prop)
    `{forall x, Decision (P x)} (l : list A) :
  StronglySorted R l -> StronglySorted R (filter P l).
Proof.
  induction 1 as [| x l Hsorted IH Hall]; [constructor |].
  rewrite filter_cons. case_decide; [| exact IH].
  constructor; [exact IH |].
  apply Forall_forall. intros y Hy. apply list_elem_of_filter in Hy as [_ Hy].
  rewrite Forall_forall in Hall. apply Hall, Hy.
Qed.

(** Without a field named as the year, the loop keeps the fields that start
    with the year, in their order. *)
Lemma timestamps_of_year_filter year : forall timestamps timeStampsToFetch,
  year ∉ timestamps ->
  timestamps_of_year year timestamps timeStampsToFetch
  = Some (timeStampsToFetch ++ filter (fun ts => Is_true (String.prefix year ts)) timestamps).
Proof.
  induction timestamps as [| ts timestamps IH]; intros acc Hnot; simpl.
  - rewrite app_nil_r. reflexivity.
  - apply not_elem_of_cons in Hnot as [Hne Hnot].
    rewrite decide_False by congruence. rewrite filter_cons.
    destruct (String.prefix year ts) eqn:Hprefix.
    + rewrite decide_True by exact I. rewrite IH by exact Hnot.
      rewrite <- app_assoc. reflexivity.
    + rewrite decide_False by (intros []). apply IH, Hnot.
Qed.

Lemma prefix_refl s : String.prefix s s = true.
Proof.
  induction s as [| c s IH]; [reflexivity |]. simpl.
  destruct (ascii_dec c c); [exact IH | congruence].
Qed.

(** The fields of a record in the order the query by year considers them. *)
Lemma sorted_fields (h : gmap string string) :
  let fields := sort_Strings (map_to_list h).*1 in
  StronglySorted String.le fields /\ NoDup fields /\
  forall ts, ts ∈ fields <-> is_Some (h !! ts).
Proof.
  cbv zeta. unfold sort_Strings. split; [| split].
  - apply StronglySorted_merge_sort; apply _.
  - rewrite merge_sort_Permutation. apply NoDup_fst_map_to_list.
  - intros ts. rewrite merge_sort_Permutation, list_elem_of_fmap. split.
    + intros ([k v] & -> & Hin). apply elem_of_map_to_list in Hin. eexists. exact Hin.
    + intros [v Hv]. exists (ts, v). split; [reflexivity |].
      apply elem_of_map_to_list. exact Hv.
Qed.

(** The query by year without paging, over a record without a field named
    as the year. *)
Lemma YearSimhash_unpaged arch db url year page perPage h :
  url <> EmptyString -> year <> EmptyString ->
  db !! Surt url = Some h -> h !! year = None ->
  perPage < 0 \/ page = -1 ->
  YearSimhash arch (live db) url year page perPage
  = match filter (fun ts => Is_true (String.prefix year ts))
                 (sort_Strings (map_to_list h).*1) with
    | [] => Some ([], Some NO_CAPTURES)
    | fetched => Some (stored h <$> fetched, None)
    end.
Proof.
  intros Hurl Hyear Hkey Hmarker Hcase.
  destruct (sorted_fields h) as (_ & _ & Hfields).
  unfold YearSimhash. rewrite decide_False by tauto.
  cbn [HKeys live]. rewrite Hkey. cbn [default from_option id].
  case_decide as Hnone.
  - destruct Hnone as [[? ?] | Hlen]; [discriminate |].
    apply length_zero_iff_nil in Hlen. rewrite Hlen. reflexivity.
  - rewrite timestamps_of_year_filter;
      [| rewrite Hfields, Hmarker; intros [? ?]; discriminate].
    cbn [app].
    destruct (filter _ _) as [| ts fetched] eqn:Hfetched; [reflexivity |].
    rewrite (handleResults_fetches arch db (Surt url) h _ _ _ (ts :: fetched)).
    + reflexivity.
    + exact Hkey.
    + rewrite <- Hfetched. apply Forall_forall. intros t Ht.
      apply list_elem_of_filter in Ht as [_ Ht]. apply Hfields, Ht.
    + apply page_of_all. tauto.
Qed.

(** X12. Without paging, and over a record that has no field named as the
    year, the query by year is sound, complete and ordered: a pair is among
    the results exactly when the record stores it under a timestamp that
    starts with the year, and the results are in ascending order of their
    timestamps, each timestamp once. *)
Theorem YearSimhash_sound_complete_sorted
    (arch : Arch) (db : gmap string (gmap string string)) (url year : string)
    (page perPage : Z) (h : gmap string string) (results : list CaptureResult) :
  db !! Surt url = Some h -> h !! year = None ->
  perPage < 0 \/ page = -1 ->
  YearSimhash arch (live db) url year page perPage = Some (results, None) ->
  (forall ts sh,
     {| Timestamp := ts; Simhash := sh |} ∈ results
     <-> h !! ts = Some sh /\ String.prefix year ts = true) /\
  StronglySorted String.le (Timestamp <$> results) /\
  NoDup (Timestamp <$> results).
Proof.
  intros Hkey Hmarker Hcase Hquery.
  assert (url <> EmptyString /\ year <> EmptyString) as [Hurl Hyear].
  { unfold YearSimhash in Hquery. case_decide as Hempty; [discriminate |]. tauto. }
  rewrite (YearSimhash_unpaged _ _ _ _ _ _ h) in Hquery by assumption.
  destruct (sorted_fields h) as (Hsorted & Hnodup & Hfields).
  set (fetched := filter (fun ts => Is_true (String.prefix year ts))
                         (sort_Strings (map_to_list h).*1)) in *.
  assert (results = stored h <$> fetched) as ->.
  { destruct fetched; [discriminate | congruence]. }
  assert (Timestamp <$> (stored h <$> fetched) = fetched) as Hts.
  { rewrite <- list_fmap_compose. apply list_fmap_id. }
  rewrite Hts. split; [| split].
  - intros ts sh. rewrite list_elem_of_fmap. split.
    + intros (t & Heq & Ht). injection Heq as -> ->.
      apply list_elem_of_filter in Ht as [Hprefix Ht].
      apply Hfields in Ht as [v Hv]. rewrite Hv. simpl.
      split; [reflexivity | apply Is_true_true, Hprefix].
    + intros [Hstored Hprefix]. exists ts. split.
      * unfold stored. rewrite Hstored. reflexivity.
      * apply list_elem_of_filter. split; [apply Is_true_true, Hprefix |].
        apply Hfields. eexists. exact Hstored.
  - apply StronglySorted_filter, Hsorted.
  - apply NoDup_filter, Hnodup.
Qed.

Lemma YearSimhash_sound_complete_sorted_witness :
  let h : gmap string string :=
    {[ "20230215030303"%string := "BBB"%string;
       "20230101000000"%string := "AAA"%string;
       "20221231235959"%string := "CCC"%string ]} in
  let results := [ {| Timestamp := "20230101000000"; Simhash := "AAA" |};
                   {| Timestamp := "20230215030303"; Simhash := "BBB" |} ] in
  (forall ts sh,
     {| Timestamp := ts; Simhash := sh |} ∈ results
     <-> h !! ts = Some sh /\ String.prefix "2023" ts = true) /\
  StronglySorted String.le (Timestamp <$> results) /\
  NoDup (Timestamp <$> results).
Proof.
  cbv zeta.
  apply (YearSimhash_sound_complete_sorted amd64
           {[ Surt "example.com" :=
                {[ "20230215030303"%string := "BBB"%string;
                   "20230101000000"%string := "AAA"%string;
                   "20221231235959"%string := "CCC"%string ]} ]}
           "example.com" "2023" 0 (-1)).
  - apply lookup_singleton_eq.
  - vm_compute. reflexivity.
  - left. lia.
  - vm_compute. reflexivity.
Defined.

(** X13. When the store has no field under the key of the URL that starts
    with the year (no record at all, or only other years), the query by year
    returns NO_CAPTURES, for every page and page size. *)
Theorem YearSimhash_no_field_of_year
    (arch : Arch) (db : gmap string (gmap string string)) (url year : string)
    (page perPage : Z) :
  url <> EmptyString -> year <> EmptyString ->
  (forall ts, is_Some (field db (Surt url) ts) -> String.prefix year ts = false) ->
  YearSimhash arch (live db) url year page perPage = Some ([], Some NO_CAPTURES).
Proof.
  intros Hurl Hyear Hnone. unfold YearSimhash. rewrite decide_False by tauto.
  cbn [HKeys live].
  destruct (db !! Surt url) as [h |] eqn:Hkey; cbn [default from_option id].
  - destruct (sorted_fields h) as (_ & _ & Hfields).
    assert (forall ts, is_Some (h !! ts) -> String.prefix year ts = false) as Hnone'.
    { intros ts Hts. apply Hnone. unfold field. rewrite Hkey. exact Hts. }
    case_decide; [reflexivity |].
    rewrite timestamps_of_year_filter.
    + cbn [app].
      destruct (filter _ _) as [| ts fetched] eqn:Hfetched; [reflexivity |].
      assert (ts ∈ filter (fun ts => Is_true (String.prefix year ts))
                          (sort_Strings (map_to_list h).*1)) as Hts
        by (rewrite Hfetched; apply list_elem_of_here).
      apply list_elem_of_filter in Hts as [Hprefix Hts].
      apply Hfields, Hnone' in Hts. rewrite Hts in Hprefix. destruct Hprefix.
    + intros Hin. apply Hfields, Hnone' in Hin.
      rewrite prefix_refl in Hin. discriminate.
  - rewrite map_to_list_empty. rewrite decide_True by (right; reflexivity).
    reflexivity.
Qed.

Lemma YearSimhash_no_field_of_year_witness :
  YearSimhash amd64
    (live {[ Surt "example.com" := {[ "20221231235959"%string := "CCC"%string ]} ]})
    "example.com" "2023" 1 10
  = Some ([], Some NO_CAPTURES).
Proof.
  apply YearSimhash_no_field_of_year.
  - discriminate.
  - discriminate.
  - intros ts [v Hv]. unfold field in Hv. rewrite lookup_singleton_eq in Hv.
    simpl in Hv. apply lookup_singleton_Some in Hv as [<- _]. reflexivity.
Defined.

(** X14. With the page size -1, which is what the handler of /simhash
    passes, the page number has no effect on the query by year: whatever the
    client answers, every page is the unpaged result. *)
Theorem YearSimhash_page_size_minus_one
    (arch : Arch) (redisClient : Client) (url year : string) (page : Z) :
  YearSimhash arch redisClient url year page (-1)
  = YearSimhash arch redisClient url year (-1) (-1).
Proof.
  unfold YearSimhash. case_decide; [reflexivity |].
  destruct (HKeys redisClient (Surt url)) as [timestamps err].
  case_decide; [reflexivity |].
  destruct (timestamps_of_year _ _ _) as [[| ts fetched] |]; try reflexivity.
  unfold handleResults. rewrite !page_of_all by (left; lia). reflexivity.
Qed.

End year_query.

(** ** More on pagination *)

Section paging.
Import utils.

(** X15. Pages are counted from 1. For a page size of at least 1 and a list
    that is not empty, a page number of 0 or below, other than the -1 that
    stands for no paging, makes [handleResults] slice from a negative index:
    it panics, whatever the client (the product of page and size staying
    within an [int]). *)
Theorem handleResults_page_below_one
    (arch : Arch) (redisClient : Client) (timestamps : list string) (key : string)
    (perPage page : Z) :
  timestamps <> [] -> Z.of_nat (length timestamps) < 2 ^ 53 ->
  1 <= perPage -> page <= 0 -> page <> -1 ->
  int_min <= (page - 1) * perPage ->
  handleResults arch redisClient timestamps key perPage page = None.
Proof.
  intros Hne Hlen HperPage Hpage Hunset Hwrap.
  assert (1 <= Z.of_nat (length timestamps)) as Hone.
  { destruct timestamps; [congruence | simpl; lia]. }
  unfold handleResults, page_of, total_pages, slice.
  destruct (Z.eqb_spec page (-1)) as [? | _]; [lia |].
  destruct (Z.eqb_spec perPage 0) as [? | _]; [lia |].
  rewrite ceiling_quotient by lia.
  pose proof (last_page_bounds (Z.of_nat (length timestamps)) perPage HperPage) as Hlast.
  fold (last_page (Z.of_nat (length timestamps)) perPage).
  remember (last_page (Z.of_nat (length timestamps)) perPage) as last eqn:Hlast_eq.
  assert (1 <= last) as Hpos by nia.
  destruct (Z.ltb_spec 0 last); [| lia].
  rewrite Z.min_l by lia.
  assert ((page - 1) * perPage < 0) as Hneg by nia.
  rewrite (wrap_small ((page - 1) * perPage)) by (unfold int_max; lia).
  destruct (Z.leb_spec 0 ((page - 1) * perPage)); [lia |].
  reflexivity.
Qed.

Lemma handleResults_page_below_one_witness :
  handleResults amd64 (live january_db) january (Surt "example.com") 10 0 = None.
Proof.
  apply handleResults_page_below_one.
  - discriminate.
  - reflexivity.
  - lia.
  - lia.
  - lia.
  - vm_compute. discriminate.
Defined.

Lemma concat_pages {A} (l : list A) (n : Z) (k : nat) :
  0 <= n ->
  concat ((fun p : nat => nth_page l (Z.of_nat p) n) <$> seq 1 k)
  = take (k * Z.to_nat n) l.
Proof.
  intros Hn. induction k as [| k IH]; [reflexivity |].
  rewrite seq_S, fmap_app, concat_app, IH. simpl. rewrite app_nil_r.
  unfold nth_page.
  replace (Z.to_nat ((Z.of_nat (S k) - 1) * n)) with (k * Z.to_nat n)%nat by nia.
  rewrite take_take_drop. f_equal. lia.
Qed.

Lemma concat_fmap_each {A B C} (f : B -> C) (g : A -> list B) (l : list A) :
  concat ((fun x => f <$> g x) <$> l) = f <$> concat (g <$> l).
Proof.
  induction l as [| x l IH]; [reflexivity |].
  cbn [fmap list_fmap concat]. rewrite fmap_app. f_equal. exact IH.
Qed.

(** X16. The pages tile the results: for a page size of at least 1, the
    pages 1 to the last one, one after the other, are all the results, each
    once and in order. *)
Theorem handleResults_pages_tile
    (arch : Arch) (db : gmap string (gmap string string)) (key : string)
    (h : gmap string string) (timestamps : list string) (perPage : Z) :
  db !! key = Some h ->
  Forall (fun ts => is_Some (h !! ts)) timestamps ->
  Z.of_nat (length timestamps) < 2 ^ 53 -> 1 <= perPage <= int_max ->
  concat ((fun p : nat =>
             default [] (handleResults arch (live db) timestamps key perPage (Z.of_nat p)))
          <$> seq 1 (Z.to_nat (last_page (Z.of_nat (length timestamps)) perPage)))
  = stored h <$> timestamps.
Proof.
  intros Hkey Hstored Hlen HperPage.
  pose proof (last_page_bounds (Z.of_nat (length timestamps)) perPage ltac:(lia)) as Hlast.
  remember (last_page (Z.of_nat (length timestamps)) perPage) as last eqn:Hlast_eq.
  assert (0 <= last) as Hpos by nia.
  transitivity (concat ((fun p : nat => stored h <$> nth_page timestamps (Z.of_nat p) perPage)
                        <$> seq 1 (Z.to_nat last))).
  - f_equal. apply list_fmap_ext. intros i p Hp.
    apply list_elem_of_lookup_2, elem_of_seq in Hp.
    rewrite (handleResults_fetches arch db key h _ _ _
               (nth_page timestamps (Z.of_nat p) perPage)).
    + reflexivity.
    + exact Hkey.
    + apply nth_page_stored, Hstored.
    + rewrite page_of_page by lia. rewrite <- Hlast_eq, Z.min_l by lia. reflexivity.
  - rewrite concat_fmap_each, concat_pages by lia.
    rewrite take_ge by nia. reflexivity.
Qed.

Lemma handleResults_pages_tile_witness :
  concat ((fun p : nat =>
             default [] (handleResults amd64 (live january_db) january
                           (Surt "example.com") 10 (Z.of_nat p)))
          <$> seq 1 (Z.to_nat (last_page (Z.of_nat (length january)) 10)))
  = stored january_record <$> january.
Proof.
  apply handleResults_pages_tile.
  - apply lookup_singleton_eq.
  - exact january_stored.
  - reflexivity.
  - split; [lia | discriminate].
Defined.

End paging.

(** ** The compressed form *)

Section compressed.
Import utils compress.

Example CompressCaptures_example :
  CompressCaptures some_order map_to_list
    [ {| Timestamp := "20230101010101"; Simhash := "AAA" |};
      {| Timestamp := "20230101020202"; Simhash := "AAA" |};
      {| Timestamp := "20230215030303"; Simhash := "BBB" |} ]
  = Some ([ (2023, [ (2, [ (15, [("030303"%string, 1)]) ]);
                     (1, [ (1, [("010101"%string, 0); ("020202"%string, 0)]) ]) ]) ],
          ["AAA"; "BBB"]%string).
Proof. vm_compute. reflexivity. Qed.

Lemma first_seen_snoc hashes h :
  first_seen (hashes ++ [h])
  = if decide (h ∈ first_seen hashes) then first_seen hashes else first_seen hashes ++ [h].
Proof. unfold first_seen. rewrite foldl_app. reflexivity. Qed.

Lemma first_seen_spec hashes :
  NoDup (first_seen hashes) /\ forall h, h ∈ first_seen hashes <-> h ∈ hashes.
Proof.
  induction hashes as [| x hashes [Hnodup Helem]] using rev_ind.
  - split; [constructor | reflexivity].
  - rewrite first_seen_snoc. case_decide as Hx.
    + split; [exact Hnodup |]. intros h.
      rewrite elem_of_app, list_elem_of_singleton, <- Helem.
      split; [tauto | intros [? | ->]; assumption].
    + split.
      * apply NoDup_app. split; [exact Hnodup |]. split; [| apply NoDup_singleton].
        intros y Hy Hy'. apply list_elem_of_singleton in Hy' as ->. contradiction.
      * intros h. rewrite !elem_of_app, Helem. reflexivity.
Qed.

(** *** The first loop *)

Lemma grouped_so_far_start : grouped_so_far [] {| hashDict := ∅; grouped := ∅ |}.
Proof.
  split; [reflexivity |]. split.
  - intros h id. cbn [hashDict]. rewrite lookup_empty. split; [discriminate |].
    intros [_ Hseen]. discriminate.
  - intros c Hc. apply elem_of_nil in Hc. contradiction.
Qed.

(** A turn of the loop keeps the ids it has given and the pairs it has
    filed. *)
Lemma group_keeps g capture g' :
  group g capture = Some g' ->
  (forall h id, hashDict g !! h = Some id -> hashDict g' !! h = Some id) /\
  (forall y m d yc mc pairs,
     grouped g !! y = Some yc -> yc !! m = Some mc -> mc !! d = Some pairs ->
     exists yc' mc' pairs',
       grouped g' !! y = Some yc' /\ yc' !! m = Some mc' /\ mc' !! d = Some pairs' /\
       forall pair, pair ∈ pairs -> pair ∈ pairs').
Proof.
  unfold group. destruct (String.length _ <? 8)%nat; [discriminate |].
  intros [= <-]. cbn [hashDict grouped]. split.
  - intros h id Hh. destruct (hashDict g !! Simhash capture) eqn:Hsh; [exact Hh |].
    rewrite lookup_insert_ne by congruence. exact Hh.
  - intros y m d yc mc pairs Hy Hm Hd.
    set (ts := Timestamp capture).
    destruct (decide (year_of ts = y)) as [<- | Hy'].
    2:{ exists yc, mc, pairs. rewrite lookup_insert_ne by exact Hy'. auto. }
    rewrite Hy. cbn [default from_option id].
    destruct (decide (month_of ts = m)) as [<- | Hm'].
    2:{ eexists _, mc, pairs. rewrite lookup_insert_eq.
        split; [reflexivity |]. rewrite lookup_insert_ne by exact Hm'. auto. }
    rewrite Hm. cbn [default from_option id].
    destruct (decide (day_of ts = d)) as [<- | Hd'].
    2:{ eexists _, _, pairs. rewrite lookup_insert_eq.
        split; [reflexivity |]. rewrite lookup_insert_eq.
        split; [reflexivity |]. rewrite lookup_insert_ne by exact Hd'. auto. }
    rewrite Hd. cbn [default from_option id].
    eexists _, _, _. rewrite lookup_insert_eq.
    split; [reflexivity |]. rewrite lookup_insert_eq.
    split; [reflexivity |]. rewrite lookup_insert_eq.
    split; [reflexivity |].
    intros pair Hpair. apply elem_of_app. left. exact Hpair.
Qed.

(** A turn of the loop files its capture under the id of its fingerprint. *)
Lemma group_files g capture g' :
  group g capture = Some g' ->
  exists id yc mc pairs,
    hashDict g' !! Simhash capture = Some id /\
    grouped g' !! year_of (Timestamp capture) = Some yc /\
    yc !! month_of (Timestamp capture) = Some mc /\
    mc !! day_of (Timestamp capture) = Some pairs /\
    (hms_of (Timestamp capture), id) ∈ pairs.
Proof.
  unfold group. destruct (String.length _ <? 8)%nat; [discriminate |].
  intros [= <-]. cbn [hashDict grouped].
  set (dict := match hashDict g !! Simhash capture with
               | Some _ => hashDict g
               | None => <[Simhash capture := Z.of_nat (size (hashDict g))]> (hashDict g)
               end).
  assert (exists n, dict !! Simhash capture = Some n) as [n Hn].
  { unfold dict. destruct (hashDict g !! Simhash capture) eqn:Hsh; [eauto |].
    rewrite lookup_insert_eq. eauto. }
  rewrite Hn. cbn [default from_option id].
  exists n. rewrite !lookup_insert_eq.
  eexists. eexists. eexists. split; [reflexivity |]. split; [reflexivity |].
  rewrite !lookup_insert_eq. split; [reflexivity |]. split; [reflexivity |].
  apply elem_of_app. right. apply list_elem_of_singleton. reflexivity.
Qed.

Lemma group_step done g capture g' :
  grouped_so_far done g -> group g capture = Some g' ->
  grouped_so_far (done ++ [capture]) g'.
Proof.
  intros (Hsize & Hids & Hfiled) Hgroup.
  destruct (group_keeps _ _ _ Hgroup) as [Hkeep_ids Hkeep_pairs].
  pose proof (group_files _ _ _ Hgroup) as Hnew.
  unfold grouped_so_far. rewrite fmap_app. cbn [fmap list_fmap]. rewrite first_seen_snoc.
  set (seen := first_seen (Simhash <$> done)) in *.
  assert (hashDict g' =
          match hashDict g !! Simhash capture with
          | Some _ => hashDict g
          | None => <[Simhash capture := Z.of_nat (size (hashDict g))]> (hashDict g)
          end) as Hdict.
  { unfold group in Hgroup. destruct (String.length _ <? 8)%nat; [discriminate |].
    injection Hgroup as <-. reflexivity. }
  assert (Simhash capture ∈ seen <-> is_Some (hashDict g !! Simhash capture)) as Hseen.
  { rewrite list_elem_of_lookup. split.
    - intros [k Hk]. exists (Z.of_nat k). apply Hids. rewrite Nat2Z.id. split; [lia | exact Hk].
    - intros [id Hid]. apply Hids in Hid as [_ Hid]. eauto. }
  assert (forall c, c ∈ done ++ [capture] ->
          exists id yc mc pairs,
            hashDict g' !! Simhash c = Some id /\
            grouped g' !! year_of (Timestamp c) = Some yc /\
            yc !! month_of (Timestamp c) = Some mc /\
            mc !! day_of (Timestamp c) = Some pairs /\
            (hms_of (Timestamp c), id) ∈ pairs) as Hfiled'.
  { intros c Hc. apply elem_of_app in Hc as [Hc | Hc].
    - destruct (Hfiled c Hc) as (id & yc & mc & pairs & Hid & Hy & Hm & Hd & Hpair).
      destruct (Hkeep_pairs _ _ _ _ _ _ Hy Hm Hd) as (yc' & mc' & pairs' & ? & ? & ? & Hsub).
      exists id, yc', mc', pairs'. repeat split; auto.
    - apply list_elem_of_singleton in Hc as ->. exact Hnew. }
  destruct (hashDict g !! Simhash capture) as [id0 |] eqn:Hsh.
  - rewrite decide_True by (apply Hseen; eauto). rewrite Hdict.
    split; [exact Hsize |]. split; [exact Hids |]. rewrite <- Hdict. exact Hfiled'.
  - assert (Simhash capture ∉ seen) as Hfresh
      by (rewrite Hseen; intros [? ?]; discriminate).
    rewrite decide_False by exact Hfresh. rewrite Hdict.
    split; [| split; [| rewrite <- Hdict; exact Hfiled']].
    + rewrite map_size_insert_None by exact Hsh. rewrite length_app. simpl. lia.
    + intros h id. rewrite lookup_insert_Some, lookup_snoc_Some, Hids, Hsize. split.
      * intros [[<- <-] | [Hne [Hid Hh]]].
        -- split; [lia |]. right. rewrite Nat2Z.id. split; reflexivity.
        -- split; [exact Hid |]. left.
           split; [apply lookup_lt_Some in Hh; exact Hh | exact Hh].
      * intros [Hid [[Hlt Hh] | [Hlen ->]]].
        -- right. split; [| split; assumption].
           intros <-. apply Hfresh. apply list_elem_of_lookup. eauto.
        -- left. split; [reflexivity | lia].
Qed.

Lemma group_all_keeps captures : forall done g g',
  grouped_so_far done g -> group_all g captures = Some g' ->
  grouped_so_far (done ++ captures) g'.
Proof.
  induction captures as [| capture captures IH]; intros done g g' Hinv Hall; simpl in Hall.
  - injection Hall as <-. rewrite app_nil_r. exact Hinv.
  - destruct (group g capture) as [g1 |] eqn:Hgroup; [| discriminate]. simpl in Hall.
    rewrite (cons_middle capture done captures), app_assoc.
    apply (IH _ g1); [| exact Hall]. apply (group_step _ g); assumption.
Qed.

(** The loop panics exactly on a timestamp shorter than eight bytes. *)
Lemma group_all_None captures : forall g,
  group_all g captures = None
  <-> Exists (fun c => (String.length (Timestamp c) < 8)%nat) captures.
Proof.
  induction captures as [| capture captures IH]; intros g; simpl.
  - split; [discriminate | intros H; inversion H].
  - rewrite Exists_cons. unfold group at 1.
    destruct (Nat.ltb_spec (String.length (Timestamp capture)) 8) as [Hshort | Hlong]; simpl.
    + split; [intros _; left; exact Hshort | reflexivity].
    + rewrite IH. split; [intros H; right; exact H | intros [? | H]; [lia | exact H]].
Qed.

(** *** The two values returned *)

Lemma fill_lookup (seen : list string) : forall (L : list (string * Z)) base k,
  (forall h n, (h, n) ∈ L -> 0 <= n /\ seen !! Z.to_nat n = Some h) ->
  length base = length seen ->
  foldl (fun hashes hash_id => <[Z.to_nat hash_id.2 := hash_id.1]> hashes) base L !! k
  = if decide (k ∈ (fun p : string * Z => Z.to_nat p.2) <$> L) then seen !! k else base !! k.
Proof.
  induction L as [| [h n] L IH]; intros base k HL Hlen; cbn [foldl].
  - rewrite decide_False by apply not_elem_of_nil. reflexivity.
  - destruct (HL h n ltac:(left)) as [Hn Hh].
    rewrite IH; [| intros h' n' Hin; apply HL; right; exact Hin
                 | rewrite length_insert; exact Hlen].
    rewrite fmap_cons. cbn [fst snd].
    destruct (decide (k ∈ (fun p : string * Z => Z.to_nat p.2) <$> L)) as [Hin | Hnot].
    + rewrite decide_True by (right; exact Hin). reflexivity.
    + rewrite list_lookup_insert.
      destruct (decide (k = Z.to_nat n)) as [-> | Hne].
      * apply lookup_lt_Some in Hh as Hlt.
        rewrite (decide_True (P := Z.to_nat n ∈ _ :: _)) by (left).
        rewrite decide_True by (split; [reflexivity | lia]). symmetry. exact Hh.
      * rewrite (decide_False (P := k ∈ _ :: _)).
        -- rewrite decide_False by (intros [? _]; congruence). reflexivity.
        -- intros Hin. apply elem_of_cons in Hin as [? | ?]; [congruence | contradiction].
Qed.

Section ranges.
Context (rangeZ : forall V : Type, gmap Z V -> list (Z * V)).
Context (rangeS : gmap string Z -> list (string * Z)).
Hypothesis rangeS_order : forall m, rangeS m ≡ₚ map_to_list m.

Lemma sortedHashes_seen done g :
  grouped_so_far done g ->
  sortedHashes rangeS (hashDict g) = first_seen (Simhash <$> done).
Proof.
  intros (Hsize & Hids & _). unfold sortedHashes.
  set (seen := first_seen (Simhash <$> done)) in *.
  apply list_eq. intros k.
  rewrite (fill_lookup seen).
  - case_decide as Hk; [reflexivity |].
    destruct (seen !! k) as [h |] eqn:Hh.
    + exfalso. apply Hk. apply list_elem_of_fmap. exists (h, Z.of_nat k). simpl.
      split; [lia |]. rewrite rangeS_order. apply elem_of_map_to_list.
      apply Hids. rewrite Nat2Z.id. split; [lia | exact Hh].
    + apply lookup_replicate_None. rewrite Hsize. apply lookup_ge_None. exact Hh.
  - intros h n Hin. rewrite rangeS_order in Hin.
    apply elem_of_map_to_list in Hin. apply Hids, Hin.
  - rewrite length_replicate. exact Hsize.
Qed.

Lemma CompressCaptures_Some captures entries hashes :
  CompressCaptures rangeZ rangeS captures = Some (entries, hashes) ->
  exists g, grouped_so_far captures g /\
    entries = newCaptures rangeZ (grouped g) /\ hashes = sortedHashes rangeS (hashDict g).
Proof.
  unfold CompressCaptures. intros Hcompress.
  destruct (group_all _ captures) as [g |] eqn:Hall; [| discriminate].
  injection Hcompress as <- <-. exists g. split; [| split; reflexivity].
  apply (group_all_keeps captures [] _ g grouped_so_far_start Hall).
Qed.

(** X17. The second value that [CompressCaptures] returns is the list of the
    distinct fingerprints of the captures in the order of their first
    occurrences, each once, in whatever order the map of the ids is
    visited. *)
Theorem CompressCaptures_hashes
    (captures : list CaptureResult) (entries : list yearEntry) (hashes : list string) :
  CompressCaptures rangeZ rangeS captures = Some (entries, hashes) ->
  hashes = first_seen (Simhash <$> captures) /\
  NoDup hashes /\
  (forall h, h ∈ hashes <-> exists c, c ∈ captures /\ Simhash c = h).
Proof.
  intros Hcompress.
  destruct (CompressCaptures_Some _ _ _ Hcompress) as (g & Hinv & _ & ->).
  rewrite (sortedHashes_seen captures g Hinv).
  destruct (first_seen_spec (Simhash <$> captures)) as [Hnodup Helem].
  split; [reflexivity |]. split; [exact Hnodup |].
  intros h. rewrite Helem, list_elem_of_fmap. split.
  - intros (c & -> & Hc). eauto.
  - intros (c & Hc & <-). eauto.
Qed.

Hypothesis rangeZ_order : forall V (m : gmap Z V), rangeZ V m ≡ₚ map_to_list m.

Lemma newCaptures_filed grouped y m d yc mc pairs pair :
  grouped !! y = Some yc -> yc !! m = Some mc -> mc !! d = Some pairs ->
  pair ∈ pairs ->
  filed (newCaptures rangeZ grouped) y m d pair.
Proof.
  intros Hy Hm Hd Hpair. unfold filed, newCaptures.
  exists ((fun m_mc : Z * _ => (m_mc.1, rangeZ _ m_mc.2)) <$> rangeZ _ yc),
         (rangeZ _ mc), pairs.
  split; [| split; [| split; [| exact Hpair]]].
  - apply list_elem_of_fmap. exists (y, yc). split; [reflexivity |].
    rewrite rangeZ_order. apply elem_of_map_to_list. exact Hy.
  - apply list_elem_of_fmap. exists (m, mc). split; [reflexivity |].
    rewrite rangeZ_order. apply elem_of_map_to_list. exact Hm.
  - rewrite rangeZ_order. apply elem_of_map_to_list. exact Hd.
Qed.

Lemma CompressCaptures_files captures entries hashes c :
  CompressCaptures rangeZ rangeS captures = Some (entries, hashes) ->
  c ∈ captures ->
  exists n,
    0 <= n /\ hashes !! Z.to_nat n = Some (Simhash c) /\
    filed entries (year_of (Timestamp c)) (month_of (Timestamp c))
          (day_of (Timestamp c)) (hms_of (Timestamp c), n).
Proof.
  intros Hcompress Hc.
  destruct (CompressCaptures_Some _ _ _ Hcompress) as (g & Hinv & -> & ->).
  rewrite (sortedHashes_seen captures g Hinv).
  destruct Hinv as (_ & Hids & Hfiled).
  destruct (Hfiled c Hc) as (n & yc & mc & pairs & Hn & Hy & Hm & Hd & Hpair).
  apply Hids in Hn as [Hpos Hseen].
  exists n. split; [exact Hpos |]. split; [exact Hseen |].
  apply (newCaptures_filed _ _ _ _ yc mc pairs); assumption.
Qed.

(** X18. The compressed form loses no capture: for every capture, the first
    value files the rest of its timestamp under its year, month and day,
    paired with an id at which the second value holds its fingerprint. *)
Theorem CompressCaptures_recovers
    (captures : list CaptureResult) (entries : list yearEntry) (hashes : list string)
    (c : CaptureResult) :
  CompressCaptures rangeZ rangeS captures = Some (entries, hashes) ->
  c ∈ captures ->
  exists n,
    0 <= n /\ hashes !! Z.to_nat n = Some (Simhash c) /\
    filed entries (year_of (Timestamp c)) (month_of (Timestamp c))
          (day_of (Timestamp c)) (hms_of (Timestamp c), n).
Proof. apply CompressCaptures_files. Qed.

(** X20. The compressed answer to the query by year, as the handler of
    /simhash composes it: over a record without a field named as the year
    whose timestamps of the year have the eight bytes of a date, the query
    succeeds, the compression does not panic, and every pair stored under a
    timestamp of the year can be read back from the two values. *)
Theorem compressed_year_answer
    (arch : Arch) (db : gmap string (gmap string string)) (url year : string)
    (page : Z) (h : gmap string string) :
  url <> EmptyString -> year <> EmptyString ->
  db !! Surt url = Some h -> h !! year = None ->
  (forall ts, is_Some (h !! ts) -> String.prefix year ts = true ->
              (8 <= String.length ts)%nat) ->
  (exists ts, is_Some (h !! ts) /\ String.prefix year ts = true) ->
  exists results entries hashes,
    YearSimhash arch (live db) url year page (-1) = Some (results, None) /\
    CompressCaptures rangeZ rangeS results = Some (entries, hashes) /\
    forall ts sh, h !! ts = Some sh -> String.prefix year ts = true ->
      exists n,
        0 <= n /\ hashes !! Z.to_nat n = Some sh /\
        filed entries (year_of ts) (month_of ts) (day_of ts) (hms_of ts, n).
Proof.
  intros Hurl Hyear Hkey Hmarker Hdates (ts0 & Hts0 & Hprefix0).
  destruct (sorted_fields h) as (_ & _ & Hfields).
  rewrite (YearSimhash_unpaged _ _ _ _ _ _ h) by (try assumption; left; lia).
  set (fetched := filter (fun ts => Is_true (String.prefix year ts))
                         (sort_Strings (map_to_list h).*1)).
  assert (forall ts, ts ∈ fetched <-> is_Some (h !! ts) /\ String.prefix year ts = true)
    as Hfetched.
  { intros ts. unfold fetched. rewrite list_elem_of_filter, Hfields, Is_true_true. tauto. }
  exists (stored h <$> fetched).
  destruct (CompressCaptures rangeZ rangeS (stored h <$> fetched))
    as [[entries hashes] |] eqn:Hcompress.
  - exists entries, hashes. split; [| split; [reflexivity |]].
    + destruct fetched as [| ts fetched'] eqn:Hlist; [| reflexivity].
      exfalso. apply (not_elem_of_nil ts0). apply Hfetched. split; assumption.
    + intros ts sh Hstored Hprefix.
      apply (CompressCaptures_files _ _ _ {| Timestamp := ts; Simhash := sh |} Hcompress).
      apply list_elem_of_fmap. exists ts. split.
      * unfold stored. rewrite Hstored. reflexivity.
      * apply Hfetched. split; [eexists; exact Hstored | exact Hprefix].
  - exfalso. unfold CompressCaptures in Hcompress.
    destruct (group_all _ _) as [g |] eqn:Hall; [discriminate |].
    apply group_all_None in Hall. apply Exists_exists in Hall as (c & Hc & Hshort).
    apply list_elem_of_fmap in Hc as (ts & -> & Hts).
    apply Hfetched in Hts as [Hsome Hprefix].
    specialize (Hdates ts Hsome Hprefix). cbn [Timestamp stored] in Hshort. lia.
Qed.

End ranges.

Lemma CompressCaptures_hashes_witness :
  ["AAA"; "BBB"]%string = first_seen (Simhash <$> three_captures) /\
  NoDup ["AAA"; "BBB"]%string /\
  (forall h, h ∈ ["AAA"; "BBB"]%string <-> exists c, c ∈ three_captures /\ Simhash c = h).
Proof.
  apply (CompressCaptures_hashes some_order map_to_list ltac:(reflexivity) three_captures
           [ (2023, [ (2, [ (15, [("030303"%string, 1)]) ]);
                      (1, [ (1, [("010101"%string, 0); ("020202"%string, 0)]) ]) ]) ]).
  vm_compute. reflexivity.
Defined.

Lemma CompressCaptures_recovers_witness :
  exists n,
    0 <= n /\ ["AAA"; "BBB"]%string !! Z.to_nat n = Some "BBB"%string /\
    filed [ (2023, [ (2, [ (15, [("030303"%string, 1)]) ]);
                     (1, [ (1, [("010101"%string, 0); ("020202"%string, 0)]) ]) ]) ]
          2023 2 15 ("030303"%string, n).
Proof.
  apply (CompressCaptures_recovers some_order map_to_list ltac:(reflexivity)
           ltac:(reflexivity) three_captures _ _
           {| Timestamp := "20230215030303"; Simhash := "BBB" |}).
  - vm_compute. reflexivity.
  - unfold three_captures. do 2 right. left.
Defined.

Lemma compressed_year_answer_witness :
  let h : gmap string string :=
    {[ "20230215030303"%string := "BBB"%string;
       "20230101000000"%string := "AAA"%string;
       "20221231235959"%string := "CCC"%string ]} in
  exists results entries hashes,
    YearSimhash amd64 (live {[ Surt "example.com" := h ]}) "example.com" "2023" 1 (-1)
    = Some (results, None) /\
    CompressCaptures some_order map_to_list results = Some (entries, hashes) /\
    forall ts sh, h !! ts = Some sh -> String.prefix "2023" ts = true ->
      exists n,
        0 <= n /\ hashes !! Z.to_nat n = Some sh /\
        filed entries (year_of ts) (month_of ts) (day_of ts) (hms_of ts, n).
Proof.
  cbv zeta.
  apply (compressed_year_answer some_order map_to_list ltac:(reflexivity)
           ltac:(reflexivity) amd64).
  - discriminate.
  - discriminate.
  - apply lookup_singleton_eq.
  - vm_compute. reflexivity.
  - intros ts [v Hv] _.
    apply lookup_insert_Some in Hv as [[<- _] | [_ Hv]]; [simpl; lia |].
    apply lookup_insert_Some in Hv as [[<- _] | [_ Hv]]; [simpl; lia |].
    apply lookup_singleton_Some in Hv as [<- _]. simpl. lia.
  - exists "20230101000000"%string. split; [| reflexivity].
    exists "AAA"%string. vm_compute. reflexivity.
Defined.

(** X19. [CompressCaptures] panics exactly when one of the captures has a
    timestamp shorter than the eight bytes of a date. *)
Theorem CompressCaptures_panics_iff
    (rangeZ : forall V : Type, gmap Z V -> list (Z * V))
    (rangeS : gmap string Z -> list (string * Z)) (captures : list CaptureResult) :
  CompressCaptures rangeZ rangeS captures = None
  <-> Exists (fun c => (String.length (Timestamp c) < 8)%nat) captures.
Proof.
  rewrite <- (group_all_None captures {| hashDict := ∅; grouped := ∅ |}).
  unfold CompressCaptures.
  destruct (group_all _ captures); simpl; split; congruence.
Qed.

End compressed.

(** ** The calculation of one capture *)

Section calculations.
Import job.
Context (download : string -> string).
Context (extractHTMLFeatures : string -> list (string * Z)).

(** The fingerprint of 256 bits always fits its 32 bytes. *)
Lemma GetSimhash_256 features :
  exists text, simhash.GetSimhash features 256 = Some text /\ String.length text = 44%nat.
Proof.
  destruct (generateSimhash_bits features 256 ltac:(lia)) as (value & Hgen & Hpos & _).
  pose proof (generateSimhash_bound features 256 value ltac:(lia) Hgen) as Hbound.
  destruct (packSimhashToBytes_fits value 256 ltac:(lia)) as (bytes & Hpack & Hlen & _).
  { change (256 / 8) with 32. change (256 ^ 32) with (2 ^ 256). exact Hbound. }
  exists (base64.EncodeToString bytes). split.
  - unfold simhash.GetSimhash, simhash.encodeSimhashToBase64.
    rewrite Hgen. simpl. rewrite Hpack. reflexivity.
  - apply Nat2Z.inj.
    rewrite (EncodeToString_length_upto (length bytes)) by reflexivity.
    rewrite Hlen. reflexivity.
Qed.

(** X21. No stretch of [GetCalculation] panics: a line of fewer than two
    parts returns the empty pair, and the fingerprint of 256 bits always
    fits its buffer. The fingerprint a call computes has 44 characters and
    goes with the timestamp and the digest of the line. *)
Theorem GetCalculation_never_panics (c : call) (s : Shared) :
  step download extractHTMLFeatures c s <> Panics /\
  (forall timestamp digest c' s',
     c = Unlocked timestamp digest ->
     step download extractHTMLFeatures c s = Goes c' s' ->
     s' = s /\
     (c' = Returned EmptyString EmptyString \/
      exists encodedSimhash,
        c' = Computed timestamp digest encodedSimhash /\
        String.length encodedSimhash = 44%nat)).
Proof.
  split.
  - destruct c as [capture | timestamp digest | timestamp digest enc | timestamp sh];
      cbn [step].
    + destruct (utils.Split capture " ") as [| timestamp [| digest rest]]; try discriminate.
      destruct (locked s); [discriminate |].
      destruct (simhashMap s !! digest); discriminate.
    + destruct (String.length _ =? 0)%nat; [discriminate |].
      destruct (length _ =? 0)%nat; [discriminate |].
      destruct (GetSimhash_256 (extractHTMLFeatures (download timestamp)))
        as (text & -> & _).
      discriminate.
    + destruct (locked s); discriminate.
    + discriminate.
  - intros timestamp digest c' s' -> Hstep. cbn [step] in Hstep.
    destruct (String.length _ =? 0)%nat; [injection Hstep as <- <-; tauto |].
    destruct (length _ =? 0)%nat; [injection Hstep as <- <-; tauto |].
    destruct (GetSimhash_256 (extractHTMLFeatures (download timestamp)))
      as (text & Htext & Hlen).
    rewrite Htext in Hstep. injection Hstep as <- <-.
    split; [reflexivity |]. right. exists text. split; [reflexivity | exact Hlen].
Qed.

(** While the mutex is held, a stretch changes neither the mutex nor the
    map, and a call at the mutex does not move. *)
Lemma step_locked c s c' s' :
  locked s = true -> step download extractHTMLFeatures c s = Goes c' s' ->
  s' = s /\ ~ at_mutex c.
Proof.
  intros Hlocked Hstep.
  destruct c as [capture | timestamp digest | timestamp digest enc | timestamp sh];
    cbn [step at_mutex] in *.
  - destruct (utils.Split capture " ") as [| timestamp [| digest rest]].
    + injection Hstep as <- <-. split; [reflexivity | simpl; lia].
    + injection Hstep as <- <-. split; [reflexivity | simpl; lia].
    + rewrite Hlocked in Hstep. discriminate.
  - split; [| tauto].
    destruct (String.length _ =? 0)%nat; [congruence |].
    destruct (length _ =? 0)%nat; [congruence |].
    destruct (simhash.GetSimhash _ _); [congruence | discriminate].
  - rewrite Hlocked in Hstep. discriminate.
  - discriminate.
Qed.

Lemma pool_steps_locked start finish :
  rtc (pool_step download extractHTMLFeatures) start finish ->
  locked start.2 = true ->
  finish.2 = start.2 /\
  forall k c, start.1 !! k = Some c -> at_mutex c -> finish.1 !! k = Some c.
Proof.
  induction 1 as [[calls s] | [calls s] [calls1 s1] [calls2 s2] Hstep _ IH];
    intros Hlocked.
  - split; [reflexivity | tauto].
  - inversion Hstep as [i ? ? c c' ? Hi Hgo]; subst.
    destruct (step_locked c s c' s1 Hlocked Hgo) as [-> Hnot].
    destruct (IH Hlocked) as [Hshared Hkept].
    split; [exact Hshared |].
    intros k ck Hk Hmutex. apply Hkept; [| exact Hmutex].
    cbn [fst] in *. rewrite list_lookup_insert_ne; [exact Hk |].
    intros ->. rewrite Hi in Hk. injection Hk as ->. contradiction.
Qed.

(** X22. A call that finds the digest of its line in [simhashMap] returns
    the stored fingerprint with the timestamp of the line and leaves the
    mutex locked. From then on, however the workers go on, the mutex stays
    locked, the map is never written again, and every call that stands at
    the mutex (at its start with a line of two parts or more, or with its
    fingerprint computed) stays where it is. *)
Theorem GetCalculation_found_digest_keeps_mutex
    (calls : list call) (s : Shared) (i : nat)
    (capture timestamp digest simhash : string) (rest : list string) :
  calls !! i = Some (Called capture) ->
  utils.Split capture " " = timestamp :: digest :: rest ->
  locked s = false ->
  simhashMap s !! digest = Some simhash ->
  exists s1,
    step download extractHTMLFeatures (Called capture) s
    = Goes (Returned timestamp simhash) s1 /\
    forall calls' s',
      rtc (pool_step download extractHTMLFeatures)
          (<[i := Returned timestamp simhash]> calls, s1) (calls', s') ->
      locked s' = true /\ simhashMap s' = simhashMap s /\
      forall k c, k <> i -> calls !! k = Some c -> at_mutex c -> calls' !! k = Some c.
Proof.
  intros Hi Hsplit Hfree Hfound.
  exists {| locked := true; simhashMap := simhashMap s |}. split.
  - cbn [step]. rewrite Hsplit, Hfree, Hfound. reflexivity.
  - intros calls' s' Hrun.
    destruct (pool_steps_locked _ _ Hrun eq_refl) as [Hshared Hkept].
    cbn [fst snd] in *. subst s'. split; [reflexivity |]. split; [reflexivity |].
    intros k c Hk Hc Hmutex. apply Hkept; [| exact Hmutex].
    rewrite list_lookup_insert_ne by congruence. exact Hc.
Qed.

End calculations.

Lemma GetCalculation_found_digest_keeps_mutex_witness :
  let download := fun _ : string => "<p>hi</p>"%string in
  let extractHTMLFeatures := fun _ : string => [("hi"%string, 1)] in
  let s := {| job.locked := false;
              job.simhashMap := {[ "DIGEST"%string := "AAA"%string ]} |} in
  let calls := [job.Called "20230101000000 DIGEST"; job.Called "20230102000000 OTHER"] in
  exists s1,
    job.step download extractHTMLFeatures (job.Called "20230101000000 DIGEST") s
    = job.Goes (job.Returned "20230101000000" "AAA") s1 /\
    forall calls' s',
      rtc (job.pool_step download extractHTMLFeatures)
          (<[0%nat := job.Returned "20230101000000" "AAA"]> calls, s1) (calls', s') ->
      job.locked s' = true /\ job.simhashMap s' = job.simhashMap s /\
      forall k c, k <> 0%nat -> calls !! k = Some c -> job.at_mutex c ->
                  calls' !! k = Some c.
Proof.
  cbv zeta.
  apply (GetCalculation_found_digest_keeps_mutex _ _ _ _ 0%nat
           "20230101000000 DIGEST" "20230101000000" "DIGEST" "AAA" []).
  - reflexivity.
  - reflexivity.
  - reflexivity.
  - apply lookup_singleton_eq.
Defined.

(** ** More on the capture fetcher and the query by timestamp *)

Section more_edges.
Import job utils.

(** X23. Whatever the transport does, a call of [DownloadCapture] sleeps
    before each attempt and no more than two times, for at least one
    millisecond and less than seven in all, and sends at most two requests. *)
Theorem DownloadCapture_backoff (codecs : Codecs) (net : Network) :
  (forall i, 0 <= Intn2000 net i < 2000) ->
  let events := (DownloadCapture codecs net).2 in
  1000000 <= slept events < 7000000 /\
  (length (requests events) <= 2)%nat /\
  (exists first rest, events = Sleep first :: rest).
Proof.
  intros Hjitter. cbv zeta. unfold DownloadCapture.
  pose proof (Hjitter 0) as H0. pose proof (Hjitter (0 + 1)) as H1.
  change (Z.to_nat MAX_RETRIES) with 2%nat. cbn [attempts].
  unfold exponentialBackoff.
  change (wrap (1000000 * 2 ^ 0)) with 1000000.
  change (wrap (1000000 * 2 ^ (0 + 1))) with 2000000.
  destruct (request_ok net).
  - destruct (Do net 0%nat); [| destruct (Do net 1%nat)];
      cbn [snd slept requests omap fmap list_fmap foldr length];
      (split; [lia |]); (split; [simpl; lia |]); eauto.
  - cbn [snd slept requests omap fmap list_fmap foldr length].
    split; [lia |]. split; [simpl; lia |]. eauto.
Qed.

Lemma DownloadCapture_backoff_witness :
  let events := (DownloadCapture job.stored third_time_lucky).2 in
  1000000 <= slept events < 7000000 /\
  (length (requests events) <= 2)%nat /\
  (exists first rest, events = Sleep first :: rest).
Proof.
  apply DownloadCapture_backoff. intros i. simpl. lia.
Defined.

Lemma validateTimestamp_length ts :
  validateTimestamp ts = true -> (14 <= String.length ts)%nat.
Proof.
  unfold validateTimestamp.
  assert (String.length ts = length (list_ascii_of_string ts)) as ->.
  { induction ts as [| c ts IH]; [reflexivity | simpl; f_equal; exact IH]. }
  destruct (list_ascii_of_string ts)
    as [| y1 [| y2 [| y3 [| y4 [| m1 [| m2 [| d1 [| d2 [| h1 [| h2 [| n1 [| n2
        [| s1 [| s2 rest]]]]]]]]]]]]]]; try discriminate.
  intros _. simpl. lia.
Qed.

(** X24. The query by timestamp takes no timestamp of fewer than the 14
    bytes of the layout: it returns the invalid-input error for a year alone
    or a date without a time, whatever the client would answer. *)
Theorem TimestampSimHash_short_timestamp
    (redisClient : Client) (url timestamp : string) :
  (String.length timestamp < 14)%nat ->
  TimestampSimHash redisClient url timestamp = (∅, Some invalid_input).
Proof.
  intros Hshort. unfold TimestampSimHash.
  rewrite decide_True; [reflexivity |].
  right. right. destruct (validateTimestamp timestamp) eqn:Hvalid; [| reflexivity].
  apply validateTimestamp_length in Hvalid. lia.
Qed.

Lemma TimestampSimHash_short_timestamp_witness :
  TimestampSimHash (live january_db) "example.com" "20230101" = (∅, Some invalid_input).
Proof.
  apply TimestampSimHash_short_timestamp. simpl. lia.
Defined.

End more_edges.
